(** * Parking search: a shallow embedding of [search.py]

    The combinatorial core of the repository (geometry, partition generator,
    group search, location solver and ranking) is embedded function by
    function.  Python integers are [Z], lists are [list], the listing and
    vehicle dictionaries are records, [float('inf')] is a separate bound
    constructor, and a dictionary iterated in insertion order is an
    association list. *)

From Stdlib Require Import ZArith List Bool String Lia Permutation Sorted FinFun.
From Equations Require Import Equations.
Import ListNotations.
Local Open Scope Z_scope.

(* ------------------------------------------------------------------ *)
(** ** Data model *)

(** A listing dictionary: keys ["id"], ["location_id"], ["length"],
    ["width"], ["price_in_cents"]. *)
Module Listing.
Record t : Type := mk {
  id : string;
  location_id : string;
  length : Z;
  width : Z;
  price_in_cents : Z
}.

(** Python compares dictionaries structurally ([==]); [list.remove] and
    [in] use that comparison. *)
Definition eqb (a b : t) : bool :=
  String.eqb (id a) (id b) && String.eqb (location_id a) (location_id b)
  && Z.eqb (length a) (length b) && Z.eqb (width a) (width b)
  && Z.eqb (price_in_cents a) (price_in_cents b).
End Listing.

(** A vehicle group of the request: keys ["length"] and ["quantity"]. *)
Module Vehicle.
Record t : Type := mk {
  length : Z;
  quantity : Z
}.
End Vehicle.

(** The dictionary built at the end of one successful ordering. *)
Module Arrangement.
Record t : Type := mk {
  split_of_cars : list Z;
  listings_used : list Listing.t;
  total_price_in_cents : Z
}.
End Arrangement.

(** One entry of the ranked output. *)
Module Result.
Record t : Type := mk {
  location_id : string;
  total_price_in_cents : Z;
  listing_ids : list string
}.
End Result.

(** The running best price: a number, or [float('inf')]. *)
Inductive bound : Type :=
| Fin (p : Z)
| Inf.

(** [current_price >= cheapest] *)
Definition reaches (current_price : Z) (cheapest : bound) : bool :=
  match cheapest with
  | Fin c => c <=? current_price
  | Inf => false
  end.

(** [current_price < cheapest] *)
Definition beats (current_price : Z) (cheapest : bound) : bool :=
  match cheapest with
  | Fin c => current_price <? c
  | Inf => true
  end.

(* ------------------------------------------------------------------ *)
(** ** Geometry *)

Definition endToEnd (carLength numCars : Z) : Z * Z :=
  let width := carLength * numCars in
  let length := numCars * 10 in
  (width, length).

Definition sideBySide (carLength numCars : Z) : Z * Z :=
  let width := 10 * numCars in
  let length := carLength in
  (width, length).

(** The condition tested on every listing by the scan of
    [find_cheapest_spot_optimized]. *)
Definition fits (numCars carLength : Z) (listing : Listing.t) : bool :=
  let '(e2ewidth, e2elength) := endToEnd carLength numCars in
  let '(sbswidth, sbslength) := sideBySide carLength numCars in
  ((Listing.length listing >=? e2elength) && (Listing.width listing >=? e2ewidth))
  || ((Listing.length listing >=? sbslength) && (Listing.width listing >=? sbswidth)).

Fixpoint find_cheapest_spot_optimized (numCars carLength : Z)
    (available_listings : list Listing.t) : option Listing.t :=
  match available_listings with
  | [] => None
  | listing :: rest =>
      if fits numCars carLength listing then Some listing
      else find_cheapest_spot_optimized numCars carLength rest
  end.

(** A listing dominates a footprint [(width, length)] when it is at least
    as large in both dimensions. *)
Definition dominates (listing : Listing.t) (footprint : Z * Z) : Prop :=
  Listing.length listing >= snd footprint /\ Listing.width listing >= fst footprint.

(** A pool is price-ascending. *)
Definition price_ascending (pool : list Listing.t) : Prop :=
  StronglySorted (fun a b => Listing.price_in_cents a <= Listing.price_in_cents b) pool.

(* ------------------------------------------------------------------ *)
(** ** Partition generator *)

(** [range(start, stop)] *)
Definition range (start stop : Z) : list Z :=
  map (fun i => start + Z.of_nat i) (seq 0 (Z.to_nat (stop - start))).

(** [find_partitions(total_cars, num_sets, start)], the generator collected
    into the list of the tuples it yields, in order.  [num_sets] counts down
    to the base case 1; the search only calls it with [num_sets >= 1]
    (with 0 the source divides by zero, which the embedding leaves out by
    yielding nothing). [/] on [Z] is the floor division of Python's [//]. *)
Fixpoint find_partitions (total_cars : Z) (num_sets : nat) (start : Z) : list (list Z) :=
  match num_sets with
  | O => []
  | S O => if total_cars >=? start then [[total_cars]] else []
  | S (S _ as num_sets') =>
      flat_map
        (fun i => map (cons i) (find_partitions (total_cars - i) num_sets' i))
        (range start (total_cars / Z.of_nat num_sets + 1))
  end.

(** [itertools.permutations]: all orderings of a tuple by position, in
    lexicographic order of the positions. *)
Fixpoint selections {A : Type} (l : list A) : list (A * list A) :=
  match l with
  | [] => []
  | x :: xs => (x, xs) :: map (fun p => (fst p, x :: snd p)) (selections xs)
  end.

Fixpoint permutations_of_length {A : Type} (n : nat) (l : list A) : list (list A) :=
  match n with
  | O => [[]]
  | S n' =>
      flat_map (fun p => map (cons (fst p)) (permutations_of_length n' (snd p)))
               (selections l)
  end.

Definition permutations {A : Type} (l : list A) : list (list A) :=
  permutations_of_length (List.length l) l.

(* ------------------------------------------------------------------ *)
(** ** Listing pool *)

(** [pool.remove(spot)]: drops the first element equal to [spot].  The
    source only calls it on a listing that is in the pool. *)
Fixpoint remove_first (spot : Listing.t) (pool : list Listing.t) : list Listing.t :=
  match pool with
  | [] => []
  | l :: rest => if Listing.eqb l spot then rest else l :: remove_first spot rest
  end.

(** [spot in pool] *)
Definition contains (pool : list Listing.t) (spot : Listing.t) : bool :=
  existsb (fun l => Listing.eqb l spot) pool.

Definition sum_prices (used : list Listing.t) : Z :=
  fold_right (fun l acc => Listing.price_in_cents l + acc) 0 used.

(* ------------------------------------------------------------------ *)
(** ** Stable sorting *)

(** [list.sort(key=...)] and [sorted(..., key=..., reverse=True)] are
    stable.  [before a b] says that the key of [a] is strictly ahead of
    the key of [b] in the requested direction. *)
Fixpoint insert_by {A : Type} (before : A -> A -> bool) (x : A) (l : list A) : list A :=
  match l with
  | [] => [x]
  | y :: rest => if before y x then y :: insert_by before x rest else x :: y :: rest
  end.

Definition stable_sort {A : Type} (before : A -> A -> bool) (l : list A) : list A :=
  fold_right (insert_by before) [] l.

Definition sort_ascending {A : Type} (key : A -> Z) : list A -> list A :=
  stable_sort (fun a b => key a <? key b).

Definition sort_descending {A : Type} (key : A -> Z) : list A -> list A :=
  stable_sort (fun a b => key a >? key b).

(* ------------------------------------------------------------------ *)
(** ** Group search, location solver, ranking *)

Section Search.

(** [set(permutations(partition))] is iterated in the order of CPython's
    hash table, which the program does not control.  [set_order] is that
    order: it maps the sequence of tuples inserted into the set to the
    sequence in which the loop visits the distinct ones. *)
Variable set_order : list (list Z) -> list (list Z).

(** The loop over [p_ordering]: [Some (used_listings, current_price)]
    when the loop ends with [is_possible] still true, [None] when it
    breaks. *)
Fixpoint place_groups (carLength : Z) (cheapest : bound) (p_ordering : list Z)
    (temp_listings used_listings : list Listing.t) (current_price : Z)
    : option (list Listing.t * Z) :=
  match p_ordering with
  | [] => Some (used_listings, current_price)
  | group_size :: rest =>
      if reaches current_price cheapest then None
      else
        match find_cheapest_spot_optimized group_size carLength temp_listings with
        | Some spot =>
            place_groups carLength cheapest rest
              (remove_first spot temp_listings)
              (used_listings ++ [spot])
              (current_price + Listing.price_in_cents spot)
        | None => None
        end
  end.

(** The three nested [for] loops, as the sequence of orderings visited. *)
Definition orderings (numCars : Z) : list (list Z) :=
  flat_map
    (fun num_groups =>
       flat_map (fun partition => set_order (permutations partition))
                (find_partitions numCars (Z.to_nat num_groups) 1))
    (range 1 (numCars + 1)).

(** One iteration of the innermost loop body on the pair
    [(cheapest_price_for_this_loc, best_arrangement_for_this_loc)]. *)
Definition try_ordering (carLength : Z) (listings_at_location : list Listing.t)
    (state : bound * option Arrangement.t) (p_ordering : list Z)
    : bound * option Arrangement.t :=
  match place_groups carLength (fst state) p_ordering listings_at_location [] 0 with
  | Some (used_listings, current_price) =>
      if beats current_price (fst state)
      then (Fin current_price,
            Some (Arrangement.mk p_ordering used_listings current_price))
      else state
  | None => state
  end.

Definition find_cheapest_for_location (numCars carLength : Z)
    (listings_at_location : list Listing.t) (price_to_beat : bound)
    : option Arrangement.t :=
  snd (fold_left (try_ordering carLength listings_at_location)
                 (orderings numCars) (price_to_beat, None)).

(** [for spot in used: if spot in available: available.remove(spot)] *)
Definition remove_used (used available : list Listing.t) : list Listing.t :=
  fold_left
    (fun available spot =>
       if contains available spot then remove_first spot available else available)
    used available.

(** The loop over [sorted_request] at one location: [Some] of the total
    price and the used listings when [location_is_possible] stays true. *)
Fixpoint place_request (sorted_request : list Vehicle.t)
    (available_listings_at_loc used_listings_for_loc : list Listing.t)
    (current_total_price : Z) : option (Z * list Listing.t) :=
  match sorted_request with
  | [] => Some (current_total_price, used_listings_for_loc)
  | vehicle_group :: rest =>
      let num_cars := Vehicle.quantity vehicle_group in
      let car_length := Vehicle.length vehicle_group in
      match find_cheapest_for_location num_cars car_length
              available_listings_at_loc Inf with
      | Some arrangement =>
          place_request rest
            (remove_used (Arrangement.listings_used arrangement)
                         available_listings_at_loc)
            (used_listings_for_loc ++ Arrangement.listings_used arrangement)
            (current_total_price + Arrangement.total_price_in_cents arrangement)
      | None => None
      end
  end.

Definition demand (v : Vehicle.t) : Z := Vehicle.quantity v * Vehicle.length v.

(** The body of the loop over the locations. *)
Definition solve_location (vehicle_request : list Vehicle.t)
    (location : string * list Listing.t) : option Result.t :=
  let sorted_request := sort_descending demand vehicle_request in
  match place_request sorted_request (snd location) [] 0 with
  | Some (current_total_price, used_listings_for_loc) =>
      Some (Result.mk (fst location) current_total_price
                      (map Listing.id used_listings_for_loc))
  | None => None
  end.

(** [locations[listing['location_id']].append(listing)] on a dictionary
    that keeps its keys in insertion order. *)
Fixpoint append_at (loc_id : string) (listing : Listing.t)
    (locations : list (string * list Listing.t)) : list (string * list Listing.t) :=
  match locations with
  | [] => [(loc_id, [listing])]
  | (k, ls) :: rest =>
      if String.eqb k loc_id then (k, ls ++ [listing]) :: rest
      else (k, ls) :: append_at loc_id listing rest
  end.

Definition group_listings_by_location (listings : list Listing.t)
    : list (string * list Listing.t) :=
  let locations :=
    fold_left (fun locations listing =>
                 append_at (Listing.location_id listing) listing locations)
              listings [] in
  map (fun kv => (fst kv, sort_ascending Listing.price_in_cents (snd kv))) locations.

Definition feasible_results (vehicle_request : list Vehicle.t)
    (grouped_locations : list (string * list Listing.t)) : list Result.t :=
  flat_map (fun location =>
              match solve_location vehicle_request location with
              | Some r => [r]
              | None => []
              end)
           grouped_locations.

Definition find_best_solution_with_grouping (vehicle_request : list Vehicle.t)
    (all_listings : list Listing.t) : list Result.t :=
  let grouped_locations := group_listings_by_location all_listings in
  let overall_results := feasible_results vehicle_request grouped_locations in
  sort_ascending Result.total_price_in_cents overall_results.

End Search.

(** The location ids of a catalog in the order of their first occurrence. *)
Fixpoint first_occurrences (ids : list string) : list string :=
  match ids with
  | [] => []
  | x :: rest => x :: filter (fun y => negb (String.eqb y x)) (first_occurrences rest)
  end.

(** A concrete iteration order for sets, used to run the search: the
    distinct tuples in the order of their first insertion. *)
Fixpoint insertion_order (l : list (list Z)) : list (list Z) :=
  match l with
  | [] => []
  | x :: rest =>
      x :: filter (fun y => negb (if list_eq_dec Z.eq_dec y x then true else false))
                  (insertion_order rest)
  end.

(* ------------------------------------------------------------------ *)
(** ** Specification vocabulary *)

Definition sum (t : list Z) : Z := fold_right Z.add 0 t.

(** [t] starts at [m] or above and never decreases. *)
Fixpoint nondecreasing_from (m : Z) (t : list Z) : Prop :=
  match t with
  | [] => True
  | x :: rest => m <= x /\ nondecreasing_from x rest
  end.

(** The tuples the partition generator is meant to yield. *)
Definition is_partition (total : Z) (numParts : nat) (minPart : Z) (t : list Z) : Prop :=
  List.length t = numParts /\
  Forall (fun x => minPart <= x) t /\
  StronglySorted Z.le t /\
  sum t = total.

(** The number of integer partitions of [n] into exactly [k] positive
    parts, by the textbook recurrence p(n,k) = p(n-1,k-1) + p(n-k,k). *)
#[local] Unset Equations With Funext.
Equations partition_count (n k : nat) : nat by wf n lt :=
  partition_count O O := 1%nat;
  partition_count (S n) O := 0%nat;
  partition_count O (S k) := 0%nat;
  partition_count (S n) (S k) with Nat.ltb n k => {
    | true := 0%nat;
    | false := (partition_count n k + partition_count (n - k) (S k))%nat }.
Next Obligation. lia. Qed.

(** What the program relies on when it iterates over a set: every
    distinct element is visited, once. *)
Definition iterates_distinct (set_order : list (list Z) -> list (list Z)) : Prop :=
  forall l, NoDup (set_order l) /\ forall x, In x (set_order l) <-> In x l.

(** An ordering of a partition of [numCars] into positive parts. *)
Definition is_ordering_of_partition (numCars : Z) (ordering : list Z) : Prop :=
  exists (numParts : nat) (partition : list Z),
    In partition (find_partitions numCars numParts 1) /\ Permutation partition ordering.

(** Serving the sub-groups of an ordering in sequence, each taking the first
    compatible listing that remains; [None] when some sub-group finds no
    listing.  No price bound is involved. *)
Fixpoint greedy (carLength : Z) (ordering : list Z) (pool : list Listing.t)
    : option (list Listing.t) :=
  match ordering with
  | [] => Some []
  | group_size :: rest =>
      match find_cheapest_spot_optimized group_size carLength pool with
      | Some spot =>
          match greedy carLength rest (remove_first spot pool) with
          | Some used => Some (spot :: used)
          | None => None
          end
      | None => None
      end
  end.

Definition nonnegative_prices (pool : list Listing.t) : Prop :=
  Forall (fun l => 0 <= Listing.price_in_cents l) pool.

(** What the group search knows after the orderings [explored]: its best
    arrangement is the greedy service of one of them, its bound is that
    arrangement's price, and no explored ordering is served for less. *)
Definition search_invariant (carLength : Z) (pool : list Listing.t)
    (explored : list (list Z)) (state : bound * option Arrangement.t) : Prop :=
  match snd state with
  | None =>
      fst state = Inf /\
      forall o, In o explored -> greedy carLength o pool = None
  | Some a =>
      fst state = Fin (Arrangement.total_price_in_cents a) /\
      In (Arrangement.split_of_cars a) explored /\
      greedy carLength (Arrangement.split_of_cars a) pool
        = Some (Arrangement.listings_used a) /\
      Arrangement.total_price_in_cents a = sum_prices (Arrangement.listings_used a) /\
      forall o used, In o explored -> greedy carLength o pool = Some used ->
        Arrangement.total_price_in_cents a <= sum_prices used
  end.

(** [l1] is [l2] with some elements left out, the others in order. *)
Inductive subsequence {A : Type} : list A -> list A -> Prop :=
| subsequence_nil : subsequence [] []
| subsequence_take x l1 l2 : subsequence l1 l2 -> subsequence (x :: l1) (x :: l2)
| subsequence_skip x l1 l2 : subsequence l1 l2 -> subsequence l1 (x :: l2).

(** The dictionary of [group_listings_by_location] before its lists are
    sorted. *)
Definition collect_by_location (listings : list Listing.t)
    : list (string * list Listing.t) :=
  fold_left (fun locations listing =>
               append_at (Listing.location_id listing) listing locations)
            listings [].

(** Every vehicle group of a sorted request is placed in turn: the group
    search finds an arrangement for it in what the earlier groups left of
    the pool.  [used] collects the listings and [price] their total. *)
Inductive all_groups_placed (set_order : list (list Z) -> list (list Z))
    : list Vehicle.t -> list Listing.t -> list Listing.t -> Z -> Prop :=
| placed_none pool : all_groups_placed set_order [] pool [] 0
| placed_group v rest pool a used price :
    find_cheapest_for_location set_order (Vehicle.quantity v) (Vehicle.length v) pool Inf
      = Some a ->
    all_groups_placed set_order rest
      (remove_used (Arrangement.listings_used a) pool) used price ->
    all_groups_placed set_order (v :: rest) pool
      (Arrangement.listings_used a ++ used)
      (Arrangement.total_price_in_cents a + price).

(** The result that a location yields when the request is empty. *)
Definition free_result (loc_id : string) : Result.t := Result.mk loc_id 0 [].

(** A composition of [numCars]: a non-empty sequence of positive sub-group
    sizes that add up to [numCars]. *)
Definition is_composition (numCars : Z) (ordering : list Z) : Prop :=
  ordering <> [] /\ Forall (fun g => 1 <= g) ordering /\ sum ordering = numCars.

(** What the group search knows after the orderings [explored] when it
    starts from the bound [price_to_beat]: without a best arrangement the
    bound is untouched and no explored ordering beats it; with one, the
    arrangement beats the initial bound, is the greedy service of an explored
    ordering, is strictly cheaper than everything explored before it and at
    least as cheap as everything explored. *)
Definition bounded_invariant (carLength : Z) (pool : list Listing.t)
    (price_to_beat : bound) (explored : list (list Z))
    (state : bound * option Arrangement.t) : Prop :=
  match snd state with
  | None =>
      fst state = price_to_beat /\
      forall o used, In o explored -> greedy carLength o pool = Some used ->
        beats (sum_prices used) price_to_beat = false
  | Some a =>
      fst state = Fin (Arrangement.total_price_in_cents a) /\
      beats (Arrangement.total_price_in_cents a) price_to_beat = true /\
      greedy carLength (Arrangement.split_of_cars a) pool
        = Some (Arrangement.listings_used a) /\
      Arrangement.total_price_in_cents a = sum_prices (Arrangement.listings_used a) /\
      (exists earlier later,
         explored = earlier ++ Arrangement.split_of_cars a :: later /\
         forall o used, In o earlier -> greedy carLength o pool = Some used ->
           Arrangement.total_price_in_cents a < sum_prices used) /\
      forall o used, In o explored -> greedy carLength o pool = Some used ->
        Arrangement.total_price_in_cents a <= sum_prices used
  end.

(** The listing turned by a quarter: length and width exchanged. *)
Definition rotate (l : Listing.t) : Listing.t :=
  Listing.mk (Listing.id l) (Listing.location_id l)
             (Listing.width l) (Listing.length l) (Listing.price_in_cents l).


(** The number of vehicles of a request. *)
Definition total_cars (vehicle_request : list Vehicle.t) : Z :=
  fold_right (fun v acc => Vehicle.quantity v + acc) 0 vehicle_request.

(** The listings of a catalog at one location, in catalog order. *)
Definition listings_at (loc_id : string) (all_listings : list Listing.t)
    : list Listing.t :=
  filter (fun l => String.eqb (Listing.location_id l) loc_id) all_listings.

(** A second concrete iteration order for sets: the distinct tuples in the
    reverse of the order of their first insertion. *)
Definition reverse_insertion_order (l : list (list Z)) : list (list Z) :=
  rev (insertion_order l).

(** Compatibility in the words of the specification, with the footprints
    written out: the listing is at least as long and as wide as the
    end-to-end footprint (width vehicleLength * groupSize, length
    groupSize * 10) or as the side-by-side footprint (width 10 * groupSize,
    length vehicleLength). *)
Definition compatible (vehicleLength groupSize : Z) (l : Listing.t) : Prop :=
  (Listing.length l >= groupSize * 10 /\ Listing.width l >= vehicleLength * groupSize) \/
  (Listing.length l >= vehicleLength /\ Listing.width l >= 10 * groupSize).

(** An ordering of a partition of [numCars], without reference to the
    generator: a rearrangement of a non-decreasing tuple of positive parts
    that sum to [numCars]. *)
Definition ordering_of_some_partition (numCars : Z) (ordering : list Z) : Prop :=
  exists (numParts : nat) (partition : list Z),
    (1 <= numParts)%nat /\
    is_partition numCars numParts 1 partition /\
    Permutation partition ordering.

(** The greedy service of an ordering, without reference to the scan or to
    the removal: the sub-groups are served in sequence; each takes from the
    remaining pool a compatible listing that no compatible listing of the
    remaining pool precedes and that none undercuts, and that listing, and
    only it, leaves the pool. *)
Inductive greedy_service (vehicleLength : Z)
    : list Z -> list Listing.t -> list Listing.t -> Prop :=
| service_done pool : greedy_service vehicleLength [] pool []
| service_step groupSize rest before spot after used :
    compatible vehicleLength groupSize spot ->
    (forall l, In l before -> ~ compatible vehicleLength groupSize l) ->
    (forall l, In l (before ++ spot :: after) ->
       compatible vehicleLength groupSize l ->
       Listing.price_in_cents spot <= Listing.price_in_cents l) ->
    greedy_service vehicleLength rest (before ++ after) used ->
    greedy_service vehicleLength (groupSize :: rest)
      (before ++ spot :: after) (spot :: used).

(** Two listings at different locations that carry the same id. *)
Definition listing_x1 : Listing.t := Listing.mk "x" "L1" 10 10 300.
Definition listing_x2 : Listing.t := Listing.mk "x" "L2" 10 10 300.

(** Three listings used to run the definitions. *)
Definition listing_a : Listing.t := Listing.mk "a" "L1" 10 10 300.
Definition listing_b : Listing.t := Listing.mk "b" "L1" 10 10 300.
Definition listing_c : Listing.t := Listing.mk "c" "L2" 40 40 500.

(* ------------------------------------------------------------------ *)
(** ** Facts about the scan *)

Lemma fits_dominates numCars carLength listing :
  fits numCars carLength listing = true <->
  dominates listing (endToEnd carLength numCars) \/
  dominates listing (sideBySide carLength numCars).
Proof.
  unfold fits, dominates, endToEnd, sideBySide; simpl.
  rewrite orb_true_iff, !andb_true_iff, !Z.geb_le. lia.
Qed.

Lemma find_cheapest_spot_some numCars carLength pool spot :
  find_cheapest_spot_optimized numCars carLength pool = Some spot ->
  In spot pool /\ fits numCars carLength spot = true.
Proof.
  induction pool as [|l pool IH]; simpl; [discriminate|].
  destruct (fits numCars carLength l) eqn:E.
  - intros [= <-]. auto.
  - intros H. destruct (IH H). auto.
Qed.

Lemma find_cheapest_spot_none numCars carLength pool :
  find_cheapest_spot_optimized numCars carLength pool = None <->
  forall l, In l pool -> fits numCars carLength l = false.
Proof.
  induction pool as [|l pool IH]; simpl.
  - split; [intros _ ? []|reflexivity].
  - destruct (fits numCars carLength l) eqn:E.
    + split; [discriminate|]. intros H. rewrite (H l) in E by auto. discriminate.
    + rewrite IH. split.
      * intros H x [<-|Hx]; auto.
      * intros H x Hx. apply H. auto.
Qed.

Lemma find_cheapest_spot_first numCars carLength pool spot :
  price_ascending pool ->
  find_cheapest_spot_optimized numCars carLength pool = Some spot ->
  forall l, In l pool -> fits numCars carLength l = true ->
    Listing.price_in_cents spot <= Listing.price_in_cents l.
Proof.
  induction 1 as [|a pool Hs IH Ha]; simpl; [discriminate|].
  destruct (fits numCars carLength a) eqn:E.
  - intros [= <-] l [<-|Hl] _; [lia|].
    rewrite Forall_forall in Ha. auto.
  - intros H l [<-|Hl] Hf; [congruence|]. auto.
Qed.

(** C4: the end-to-end footprint is (vehicleLength * groupSize, groupSize * 10),
    the side-by-side footprint is (10 * groupSize, vehicleLength), both as
    (width, length); a listing is selected by the scan exactly when its length
    and width are each at least the corresponding dimension of one of the two
    footprints. *)
Theorem footprints_and_compatibility (vehicleLength groupSize : Z) (listing : Listing.t) :
  endToEnd vehicleLength groupSize = (vehicleLength * groupSize, groupSize * 10) /\
  sideBySide vehicleLength groupSize = (10 * groupSize, vehicleLength) /\
  (find_cheapest_spot_optimized groupSize vehicleLength [listing] = Some listing <->
   (Listing.length listing >= groupSize * 10 /\
    Listing.width listing >= vehicleLength * groupSize) \/
   (Listing.length listing >= vehicleLength /\
    Listing.width listing >= 10 * groupSize)).
Proof.
  split; [reflexivity|]. split; [reflexivity|].
  simpl. destruct (fits groupSize vehicleLength listing) eqn:E.
  - apply fits_dominates in E. unfold dominates in E. simpl in E. tauto.
  - split; [discriminate|]. intros H.
    assert (fits groupSize vehicleLength listing = true) as E'
      by (apply fits_dominates; unfold dominates; simpl; tauto).
    congruence.
Qed.

(** C7: on a price-ascending pool, when some listing of the pool is
    compatible the scan returns a compatible listing of the pool whose price
    is minimal among all compatible listings of the pool, and when no
    listing of the pool is compatible it returns nothing. *)
Theorem find_cheapest_spot_optimal (groupSize vehicleLength : Z) (pool : list Listing.t) :
  price_ascending pool ->
  ((exists l, In l pool /\ fits groupSize vehicleLength l = true) ->
   exists spot,
     find_cheapest_spot_optimized groupSize vehicleLength pool = Some spot /\
     In spot pool /\ fits groupSize vehicleLength spot = true /\
     forall l, In l pool -> fits groupSize vehicleLength l = true ->
       Listing.price_in_cents spot <= Listing.price_in_cents l) /\
  ((forall l, In l pool -> fits groupSize vehicleLength l = false) ->
   find_cheapest_spot_optimized groupSize vehicleLength pool = None).
Proof.
  intros Hs. split.
  - intros [l [Hl Hf]].
    destruct (find_cheapest_spot_optimized groupSize vehicleLength pool) as [spot|] eqn:E.
    + destruct (find_cheapest_spot_some _ _ _ _ E) as [Hin Hfit].
      exists spot. repeat split; auto. eapply find_cheapest_spot_first; eauto.
    + rewrite find_cheapest_spot_none in E. rewrite (E l Hl) in Hf. discriminate.
  - apply find_cheapest_spot_none.
Qed.

(* ------------------------------------------------------------------ *)
(** ** Facts about ranges and list combinators *)

Lemma in_range i start stop : In i (range start stop) <-> start <= i < stop.
Proof.
  unfold range. rewrite in_map_iff. split.
  - intros [j [<- Hj]]. apply in_seq in Hj. lia.
  - intros H. exists (Z.to_nat (i - start)). split; [lia|].
    apply in_seq. lia.
Qed.

Lemma NoDup_range start stop : NoDup (range start stop).
Proof.
  unfold range. apply Injective_map_NoDup.
  - intros a b H. lia.
  - apply seq_NoDup.
Qed.

Lemma range_nil start stop : stop <= start -> range start stop = [].
Proof.
  intros H. unfold range. replace (Z.to_nat (stop - start)) with O by lia. reflexivity.
Qed.

Lemma range_cons start stop :
  start < stop -> range start stop = start :: range (start + 1) stop.
Proof.
  intros H. unfold range.
  replace (Z.to_nat (stop - start)) with (S (Z.to_nat (stop - (start + 1)))) by lia.
  simpl. f_equal; [lia|].
  rewrite <- seq_shift, map_map. apply map_ext. intros a. lia.
Qed.

Lemma range_shift start stop :
  range (start + 1) (stop + 1) = map Z.succ (range start stop).
Proof.
  unfold range. rewrite map_map.
  replace (stop + 1 - (start + 1)) with (stop - start) by lia.
  apply map_ext. intros a. lia.
Qed.

Lemma NoDup_flat_map {A B : Type} (f : A -> list B) (l : list A) :
  NoDup l ->
  (forall x, In x l -> NoDup (f x)) ->
  (forall x y b, In x l -> In y l -> In b (f x) -> In b (f y) -> x = y) ->
  NoDup (flat_map f l).
Proof.
  induction 1 as [|a l Ha Hl IH]; intros Hf Hd; simpl; [constructor|].
  apply NoDup_app.
  - apply Hf. left. reflexivity.
  - apply IH.
    + intros x Hx. apply Hf. right. exact Hx.
    + intros x y b Hx Hy. apply Hd; right; assumption.
  - intros b Hb Hb'. apply in_flat_map in Hb'. destruct Hb' as [y [Hy Hby]].
    assert (a = y) by (apply (Hd a y b); simpl; auto).
    subst. contradiction.
Qed.

Lemma length_flat_map_ext {A B C : Type} (f : A -> list B) (g : A -> list C) (l : list A) :
  (forall x, In x l -> List.length (f x) = List.length (g x)) ->
  List.length (flat_map f l) = List.length (flat_map g l).
Proof.
  induction l as [|a l IH]; intros H; simpl; [reflexivity|].
  rewrite !length_app, H, IH; auto.
  - intros x Hx. apply H. right. exact Hx.
  - left. reflexivity.
Qed.

(* ------------------------------------------------------------------ *)
(** ** The partition generator yields exactly the partitions *)

Lemma find_partitions_one total_cars start :
  find_partitions total_cars 1 start =
  if total_cars >=? start then [[total_cars]] else [].
Proof. reflexivity. Qed.

Lemma find_partitions_two_or_more total_cars k start :
  find_partitions total_cars (S (S k)) start =
  flat_map (fun i => map (cons i) (find_partitions (total_cars - i) (S k) i))
           (range start (total_cars / Z.of_nat (S (S k)) + 1)).
Proof. reflexivity. Qed.

Lemma nondecreasing_from_weaken m m' t :
  m' <= m -> nondecreasing_from m t -> nondecreasing_from m' t.
Proof. destruct t; simpl; [auto|]. intros H [H1 H2]. split; [lia|assumption]. Qed.

Lemma nondecreasing_from_sum m t :
  nondecreasing_from m t -> m * Z.of_nat (List.length t) <= sum t.
Proof.
  revert m. induction t as [|x t IH]; intros m; simpl; [lia|].
  intros [H1 H2]. specialize (IH x H2). unfold sum in *. simpl. nia.
Qed.

Lemma nondecreasing_from_sorted m t :
  nondecreasing_from m t <-> Forall (fun x => m <= x) t /\ StronglySorted Z.le t.
Proof.
  revert m. induction t as [|x t IH]; intros m; simpl.
  - split; [intros _; split; constructor|auto].
  - rewrite IH. split.
    + intros [H1 [H2 H3]]. split.
      * constructor; [assumption|]. eapply Forall_impl; [|exact H2].
        simpl. intros. lia.
      * constructor; assumption.
    + intros [H1 H2]. inversion H1; subst. inversion H2; subst. auto.
Qed.

Lemma in_find_partitions k total_cars start t :
  In t (find_partitions total_cars (S k) start) <->
  List.length t = S k /\ nondecreasing_from start t /\ sum t = total_cars.
Proof.
  revert total_cars start t. induction k as [|k IH]; intros total_cars start t.
  - simpl. destruct (Z.geb_spec total_cars start) as [H|H]; simpl.
    + split.
      * intros [<-|[]]. simpl. unfold sum. simpl. repeat split; lia.
      * intros [H1 [H2 H3]]. destruct t as [|x [|y t]]; try discriminate.
        unfold sum in H3. simpl in H3. left. f_equal. lia.
    + split; [intros []|]. intros [H1 [H2 H3]].
      destruct t as [|x [|y t]]; try discriminate.
      unfold sum in H3. simpl in H2, H3. lia.
  - rewrite find_partitions_two_or_more, in_flat_map. split.
    + intros [i [Hi Ht]]. apply in_range in Hi. apply in_map_iff in Ht.
      destruct Ht as [t' [<- Ht']]. apply IH in Ht'. destruct Ht' as [H1 [H2 H3]].
      simpl. unfold sum in *. simpl. repeat split; try lia. assumption.
    + intros [H1 [H2 H3]]. destruct t as [|i t']; [discriminate|].
      simpl in H2. destruct H2 as [H2 H4]. exists i. split.
      * apply in_range. split; [assumption|].
        pose proof (nondecreasing_from_sum i t' H4) as Hs.
        assert (i <= total_cars / Z.of_nat (S (S k))); [|lia].
        apply Z.div_le_lower_bound; [lia|].
        simpl in H1. injection H1 as H1. rewrite H1 in Hs.
        unfold sum in *. simpl in H3. lia.
      * apply in_map. apply IH. simpl in H1. unfold sum in *. simpl in H3.
        repeat split; [congruence|assumption|lia].
Qed.

Lemma NoDup_find_partitions k total_cars start :
  NoDup (find_partitions total_cars k start).
Proof.
  revert total_cars start. induction k as [|[|k] IH]; intros total_cars start.
  - constructor.
  - simpl. destruct (total_cars >=? start); repeat constructor. intros [].
  - rewrite find_partitions_two_or_more. apply NoDup_flat_map.
    + apply NoDup_range.
    + intros i _. apply Injective_map_NoDup; [|apply IH].
      intros a b H. congruence.
    + intros x y b _ _ Hx Hy. apply in_map_iff in Hx, Hy.
      destruct Hx as [? [<- _]]. destruct Hy as [? [Hy _]]. congruence.
Qed.

Lemma find_partitions_empty k total_cars start :
  total_cars < start * Z.of_nat (S k) ->
  find_partitions total_cars (S k) start = [].
Proof.
  intros H. destruct (find_partitions total_cars (S k) start) as [|t l] eqn:E; [reflexivity|].
  assert (In t (find_partitions total_cars (S k) start)) as Ht by (rewrite E; left; reflexivity).
  apply in_find_partitions in Ht. destruct Ht as [H1 [H2 H3]].
  apply nondecreasing_from_sum in H2. rewrite H1 in H2. lia.
Qed.

Lemma find_partitions_split k total_cars start :
  start <= total_cars / Z.of_nat (S (S k)) ->
  find_partitions total_cars (S (S k)) start =
  map (cons start) (find_partitions (total_cars - start) (S k) start)
  ++ find_partitions total_cars (S (S k)) (start + 1).
Proof.
  intros H. rewrite !find_partitions_two_or_more.
  rewrite (range_cons start) by lia. reflexivity.
Qed.

Lemma find_partitions_shift k total_cars start :
  List.length (find_partitions total_cars (S k) (start + 1)) =
  List.length (find_partitions (total_cars - Z.of_nat (S k)) (S k) start).
Proof.
  revert total_cars start. induction k as [|k IH]; intros total_cars start.
  - simpl. destruct (Z.geb_spec total_cars (start + 1));
      destruct (Z.geb_spec (total_cars - 1) start); simpl; lia.
  - rewrite !find_partitions_two_or_more.
    replace ((total_cars - Z.of_nat (S (S k))) / Z.of_nat (S (S k)) + 1)
      with (total_cars / Z.of_nat (S (S k))).
    2:{ replace (total_cars - Z.of_nat (S (S k)))
          with (total_cars + (-1) * Z.of_nat (S (S k))) by lia.
        rewrite Z.div_add by lia. lia. }
    rewrite range_shift, flat_map_concat_map, map_map, <- flat_map_concat_map.
    apply length_flat_map_ext. intros i _. rewrite !length_map.
    unfold Z.succ. rewrite IH. f_equal. f_equal. lia.
Qed.

Lemma length_find_partitions (n k : nat) :
  List.length (find_partitions (Z.of_nat n) (S k) 1) = partition_count n (S k).
Proof.
  revert k. induction n as [n IHn] using lt_wf_ind. intros k.
  destruct n as [|n].
  - simp partition_count. rewrite find_partitions_empty by lia. reflexivity.
  - simp partition_count.
    destruct (Nat.ltb_spec n k) as [Hlt|Hge]; cbn [partition_count_unfold_clause_4].
    + rewrite find_partitions_empty by lia. reflexivity.
    + destruct k as [|k].
      * rewrite Nat.sub_0_r, <- (IHn n) by lia.
        rewrite !find_partitions_one.
        destruct n as [|n]; simp partition_count;
          repeat match goal with
                 | |- context [?a >=? ?b] => destruct (Z.geb_spec a b)
                 end; cbn [List.length Nat.add]; lia.
      * rewrite find_partitions_split.
        2:{ apply Z.div_le_lower_bound; lia. }
        rewrite length_app, length_map, find_partitions_shift.
        rewrite <- (IHn n), <- (IHn (n - S k)%nat) by lia.
        f_equal; f_equal; f_equal; lia.
Qed.

(** C3: for total >= 1, numParts >= 1 and minPart >= 1 the generator yields
    exactly the tuples of length numParts whose parts are at least minPart,
    never decrease and sum to total: no tuple twice, every such tuple, and
    nothing else; for minPart = 1 their number is the number of integer
    partitions of total into numParts positive parts. *)
Theorem find_partitions_exact (total : Z) (numParts : nat) (minPart : Z) :
  1 <= total -> (1 <= numParts)%nat -> 1 <= minPart ->
  NoDup (find_partitions total numParts minPart) /\
  (forall t, In t (find_partitions total numParts minPart) <->
             is_partition total numParts minPart t) /\
  List.length (find_partitions total numParts 1) =
    partition_count (Z.to_nat total) numParts.
Proof.
  intros Ht Hk Hm. destruct numParts as [|k]; [lia|].
  split; [apply NoDup_find_partitions|]. split.
  - intros t. rewrite in_find_partitions. unfold is_partition.
    rewrite nondecreasing_from_sorted. tauto.
  - rewrite <- length_find_partitions. rewrite Z2Nat.id by lia. reflexivity.
Qed.

(* ------------------------------------------------------------------ *)
(** ** Permutations of a tuple *)

Lemma in_selections {A : Type} (l : list A) x rest :
  In (x, rest) (selections l) <-> exists l1 l2, l = l1 ++ x :: l2 /\ rest = l1 ++ l2.
Proof.
  revert x rest. induction l as [|a l IH]; intros x rest; simpl.
  - split; [intros []|]. intros [l1 [l2 [H _]]]. destruct l1; discriminate.
  - split.
    + intros [[= -> ->]|H].
      * exists [], rest. auto.
      * apply in_map_iff in H. destruct H as [[y ys] [[= -> <-] H]].
        apply IH in H. destruct H as [l1 [l2 [-> ->]]].
        exists (a :: l1), l2. auto.
    + intros [l1 [l2 [H1 H2]]]. destruct l1 as [|b l1]; simpl in *.
      * left. congruence.
      * right. injection H1 as <- ->. apply in_map_iff.
        exists (x, l1 ++ l2). split; [subst; reflexivity|].
        apply IH. eauto.
Qed.

Lemma in_permutations_of_length {A : Type} (n : nat) (l p : list A) :
  List.length l = n ->
  (In p (permutations_of_length n l) <-> Permutation l p).
Proof.
  revert l p. induction n as [|n IH]; intros l p Hn.
  - destruct l; [|discriminate]. simpl. split.
    + intros [<-|[]]. constructor.
    + intros H. apply Permutation_nil in H. auto.
  - simpl. rewrite in_flat_map. split.
    + intros [[x rest] [Hs Hp]]. simpl in Hp. apply in_map_iff in Hp.
      destruct Hp as [p' [<- Hp']]. apply in_selections in Hs.
      destruct Hs as [l1 [l2 [-> ->]]].
      apply IH in Hp'.
      * rewrite <- Hp'. symmetry. apply Permutation_middle.
      * rewrite length_app in *. simpl in Hn. lia.
    + intros H. destruct p as [|x p'].
      * apply Permutation_sym, Permutation_nil in H. subst. discriminate.
      * assert (In x l) as Hx by (eapply Permutation_in; [symmetry; exact H|left; reflexivity]).
        apply in_split in Hx. destruct Hx as [l1 [l2 ->]].
        exists (x, l1 ++ l2). split; [apply in_selections; eauto|].
        simpl. apply in_map. apply IH.
        -- rewrite length_app in *. simpl in Hn. lia.
        -- eapply Permutation_cons_inv. rewrite Permutation_middle. exact H.
Qed.

Lemma in_permutations {A : Type} (l p : list A) :
  In p (permutations l) <-> Permutation l p.
Proof. apply in_permutations_of_length. reflexivity. Qed.

(* ------------------------------------------------------------------ *)
(** ** Listings and the pool *)

Lemma Listing_eqb_eq a b : Listing.eqb a b = true <-> a = b.
Proof.
  unfold Listing.eqb. rewrite !andb_true_iff, !String.eqb_eq, !Z.eqb_eq.
  destruct a, b; simpl. split.
  - intros [[[[-> ->] ->] ->] ->]. reflexivity.
  - intros [= -> -> -> -> ->]. auto.
Qed.

Lemma Listing_eqb_refl a : Listing.eqb a a = true.
Proof. apply Listing_eqb_eq. reflexivity. Qed.

Lemma contains_In pool spot : contains pool spot = true <-> In spot pool.
Proof.
  unfold contains. rewrite existsb_exists. split.
  - intros [l [Hl He]]. apply Listing_eqb_eq in He. congruence.
  - intros H. exists spot. split; [assumption|apply Listing_eqb_refl].
Qed.

Lemma remove_first_In spot pool x : In x (remove_first spot pool) -> In x pool.
Proof.
  induction pool as [|l pool IH]; simpl; [auto|].
  destruct (Listing.eqb l spot); simpl; intuition.
Qed.

Lemma remove_first_Permutation spot pool :
  In spot pool -> Permutation pool (spot :: remove_first spot pool).
Proof.
  induction pool as [|l pool IH]; simpl; [intros []|].
  destruct (Listing.eqb l spot) eqn:E.
  - apply Listing_eqb_eq in E. subst. reflexivity.
  - intros [->|H]; [rewrite Listing_eqb_refl in E; discriminate|].
    rewrite (IH H) at 1. apply perm_swap.
Qed.

Lemma remove_first_NoDup spot pool : NoDup pool -> NoDup (remove_first spot pool).
Proof.
  induction 1 as [|l pool Hl Hp IH]; simpl; [constructor|].
  destruct (Listing.eqb l spot); [assumption|].
  constructor; [|assumption]. intros H. apply Hl. eapply remove_first_In. exact H.
Qed.

Lemma remove_first_not_In spot pool : NoDup pool -> ~ In spot (remove_first spot pool).
Proof.
  induction 1 as [|l pool Hl Hp IH]; simpl; [auto|].
  destruct (Listing.eqb l spot) eqn:E.
  - apply Listing_eqb_eq in E. congruence.
  - intros [->|H]; [rewrite Listing_eqb_refl in E; discriminate|auto].
Qed.

Lemma sum_prices_app u v : sum_prices (u ++ v) = sum_prices u + sum_prices v.
Proof. induction u as [|a u IH]; simpl; [reflexivity|]. unfold sum_prices in *. simpl. lia. Qed.

Lemma sum_prices_nonneg u : nonnegative_prices u -> 0 <= sum_prices u.
Proof. induction 1; unfold sum_prices in *; simpl; lia. Qed.

Lemma nonnegative_prices_incl u pool :
  incl u pool -> nonnegative_prices pool -> nonnegative_prices u.
Proof.
  unfold nonnegative_prices. rewrite !Forall_forall. intros Hi Hp x Hx. auto.
Qed.

(* ------------------------------------------------------------------ *)
(** ** Greedy service of one ordering *)

Lemma greedy_split carLength ordering pool used :
  greedy carLength ordering pool = Some used ->
  exists remaining, Permutation pool (used ++ remaining) /\
                    List.length used = List.length ordering.
Proof.
  revert pool used. induction ordering as [|g rest IH]; intros pool used; simpl.
  - intros [= <-]. exists pool. split; reflexivity.
  - destruct (find_cheapest_spot_optimized g carLength pool) as [spot|] eqn:E; [|discriminate].
    destruct (greedy carLength rest (remove_first spot pool)) as [u|] eqn:G; [|discriminate].
    intros [= <-]. destruct (IH _ _ G) as [remaining [Hp Hl]].
    exists remaining. split; [|simpl; congruence].
    apply find_cheapest_spot_some in E. destruct E as [Hin _].
    rewrite (remove_first_Permutation _ _ Hin). simpl. constructor. exact Hp.
Qed.

Lemma greedy_incl carLength ordering pool used :
  greedy carLength ordering pool = Some used -> incl used pool.
Proof.
  intros H. destruct (greedy_split _ _ _ _ H) as [remaining [Hp _]].
  intros x Hx. eapply Permutation_in; [symmetry; exact Hp|].
  apply in_or_app. left. exact Hx.
Qed.

Lemma greedy_NoDup carLength ordering pool used :
  NoDup pool -> greedy carLength ordering pool = Some used -> NoDup used.
Proof.
  intros Hn H. destruct (greedy_split _ _ _ _ H) as [remaining [Hp _]].
  eapply NoDup_app_remove_r. eapply Permutation_NoDup; [exact Hp|exact Hn].
Qed.

(* ------------------------------------------------------------------ *)
(** ** Group search *)

Lemma sum_prices_cons l u :
  sum_prices (l :: u) = Listing.price_in_cents l + sum_prices u.
Proof. reflexivity. Qed.

Lemma nonnegative_prices_remove_first spot pool :
  nonnegative_prices pool -> nonnegative_prices (remove_first spot pool).
Proof.
  apply nonnegative_prices_incl. intros x. apply remove_first_In.
Qed.

Lemma greedy_nonneg carLength ordering pool used :
  nonnegative_prices pool -> greedy carLength ordering pool = Some used ->
  0 <= sum_prices used.
Proof.
  intros Hn H. apply sum_prices_nonneg.
  eapply nonnegative_prices_incl; [eapply greedy_incl; exact H|exact Hn].
Qed.

(** The bounded loop against the unbounded greedy service: it either ends
    with the greedy choice, or stops where greedy fails, or is pruned on an
    ordering whose greedy price does not beat the bound. *)
Lemma place_groups_spec carLength cheapest ordering :
  forall pool used0 p0, nonnegative_prices pool ->
  match place_groups carLength cheapest ordering pool used0 p0 with
  | Some (used, p) =>
      exists u, greedy carLength ordering pool = Some u /\
                used = used0 ++ u /\ p = p0 + sum_prices u
  | None =>
      greedy carLength ordering pool = None \/
      exists u c, greedy carLength ordering pool = Some u /\
                  cheapest = Fin c /\ c <= p0 + sum_prices u
  end.
Proof.
  induction ordering as [|g rest IH]; intros pool used0 p0 Hn.
  - simpl. exists []. rewrite app_nil_r. split; [reflexivity|]. split; [reflexivity|].
    unfold sum_prices. simpl. lia.
  - cbn [place_groups]. destruct (reaches p0 cheapest) eqn:R.
    + destruct (greedy carLength (g :: rest) pool) as [u|] eqn:G; [|left; reflexivity].
      right. destruct cheapest as [c|]; [|discriminate]. simpl in R.
      apply Z.leb_le in R. exists u, c. split; [reflexivity|]. split; [reflexivity|].
      pose proof (greedy_nonneg _ _ _ _ Hn G). lia.
    + cbn [greedy].
      destruct (find_cheapest_spot_optimized g carLength pool) as [spot|] eqn:E;
        [|left; reflexivity].
      specialize (IH (remove_first spot pool) (used0 ++ [spot])
                     (p0 + Listing.price_in_cents spot)
                     (nonnegative_prices_remove_first _ _ Hn)).
      destruct (place_groups carLength cheapest rest (remove_first spot pool)
                  (used0 ++ [spot]) (p0 + Listing.price_in_cents spot))
        as [[used p]|].
      * destruct IH as [u [G [-> ->]]]. rewrite G. exists (spot :: u).
        split; [reflexivity|]. rewrite <- app_assoc, sum_prices_cons.
        split; [reflexivity|lia].
      * destruct IH as [G|[u [c [G [-> Hc]]]]]; rewrite G; [left; reflexivity|].
        right. exists (spot :: u), c. rewrite sum_prices_cons.
        split; [reflexivity|]. split; [reflexivity|lia].
Qed.

Lemma try_ordering_invariant carLength pool explored state o :
  nonnegative_prices pool ->
  search_invariant carLength pool explored state ->
  search_invariant carLength pool (explored ++ [o]) (try_ordering carLength pool state o).
Proof.
  intros Hn Hinv. destruct state as [cheapest best].
  unfold try_ordering. cbn [fst snd].
  pose proof (place_groups_spec carLength cheapest o pool [] 0 Hn) as Hp.
  destruct (place_groups carLength cheapest o pool [] 0) as [[used p]|].
  - destruct Hp as [u [G [-> ->]]]. cbn [app]. rewrite Z.add_0_l.
    destruct (beats (sum_prices u) cheapest) eqn:B.
    + unfold search_invariant. cbn [fst snd Arrangement.total_price_in_cents
        Arrangement.split_of_cars Arrangement.listings_used].
      split; [reflexivity|]. split; [apply in_or_app; right; left; reflexivity|].
      split; [exact G|]. split; [reflexivity|].
      intros o' u' Ho' G'. apply in_app_or in Ho'. destruct Ho' as [Ho'|[<-|[]]].
      * unfold search_invariant in Hinv. cbn [fst snd] in Hinv.
        destruct best as [a|].
        -- destruct Hinv as [-> [_ [_ [_ Hmin]]]]. simpl in B. apply Z.ltb_lt in B.
           specialize (Hmin o' u' Ho' G'). lia.
        -- destruct Hinv as [_ Hnone]. rewrite (Hnone o' Ho') in G'. discriminate.
      * rewrite G in G'. injection G' as <-. lia.
    + unfold search_invariant in *. cbn [fst snd] in *. destruct best as [a|].
      * destruct Hinv as [-> [Hin [Hg [Ht Hmin]]]]. split; [reflexivity|].
        split; [apply in_or_app; left; exact Hin|]. split; [exact Hg|].
        split; [exact Ht|]. intros o' u' Ho' G'.
        apply in_app_or in Ho'. destruct Ho' as [Ho'|[<-|[]]]; [eauto|].
        rewrite G in G'. injection G' as <-. simpl in B. apply Z.ltb_ge in B. exact B.
      * destruct Hinv as [-> _]. discriminate.
  - unfold search_invariant in *. cbn [fst snd] in *. destruct best as [a|].
    + destruct Hinv as [-> [Hin [Hg [Ht Hmin]]]]. split; [reflexivity|].
      split; [apply in_or_app; left; exact Hin|]. split; [exact Hg|].
      split; [exact Ht|]. intros o' u' Ho' G'.
      apply in_app_or in Ho'. destruct Ho' as [Ho'|[<-|[]]]; [eauto|].
      destruct Hp as [G|[u [c [G [[= <-] Hc]]]]]; rewrite G in G'; [discriminate|].
      injection G' as <-. lia.
    + destruct Hinv as [-> Hnone]. split; [reflexivity|]. intros o' Ho'.
      apply in_app_or in Ho'. destruct Ho' as [Ho'|[<-|[]]]; [auto|].
      destruct Hp as [G|[u [c [_ [[=] _]]]]]. exact G.
Qed.

Lemma fold_try_ordering_invariant carLength pool os :
  nonnegative_prices pool ->
  forall explored state,
  search_invariant carLength pool explored state ->
  search_invariant carLength pool (explored ++ os)
    (fold_left (try_ordering carLength pool) os state).
Proof.
  intros Hn. induction os as [|o os IH]; intros explored state Hinv; simpl.
  - rewrite app_nil_r. exact Hinv.
  - replace (explored ++ o :: os) with ((explored ++ [o]) ++ os)
      by (rewrite <- app_assoc; reflexivity).
    apply IH. apply try_ordering_invariant; assumption.
Qed.

Section GroupSearch.

Variable set_order : list (list Z) -> list (list Z).
Hypothesis set_order_distinct : iterates_distinct set_order.

(** The three loops visit exactly the orderings of the partitions. *)
Lemma in_orderings numCars o :
  In o (orderings set_order numCars) <-> is_ordering_of_partition numCars o.
Proof.
  unfold orderings, is_ordering_of_partition. rewrite in_flat_map. split.
  - intros [g [Hg H]]. apply in_flat_map in H. destruct H as [part [Hp Ho]].
    apply (proj1 (proj2 (set_order_distinct _) _)) in Ho. apply in_permutations in Ho.
    exists (Z.to_nat g), part. auto.
  - intros [k [part [Hp Hperm]]]. destruct k as [|k]; [contradiction|].
    pose proof Hp as Hp'. apply in_find_partitions in Hp'.
    destruct Hp' as [H1 [H2 H3]]. apply nondecreasing_from_sum in H2.
    rewrite H1 in H2. exists (Z.of_nat (S k)). split; [apply in_range; lia|].
    apply in_flat_map. exists part. rewrite Nat2Z.id. split; [exact Hp|].
    apply (proj2 (proj2 (set_order_distinct _) _)). apply in_permutations. exact Hperm.
Qed.

Lemma group_search_invariant numCars carLength pool :
  nonnegative_prices pool ->
  search_invariant carLength pool (orderings set_order numCars)
    (fold_left (try_ordering carLength pool) (orderings set_order numCars) (Inf, None)).
Proof.
  intros Hn.
  apply (fold_try_ordering_invariant carLength pool (orderings set_order numCars) Hn
           [] (Inf, None)).
  split; [reflexivity|]. intros o [].
Qed.

End GroupSearch.

(* ------------------------------------------------------------------ *)
(** ** Stable sorting *)

Section StableSort.

Context {A : Type}.
Variable before : A -> A -> bool.

Lemma insert_by_Permutation x l : Permutation (insert_by before x l) (x :: l).
Proof.
  induction l as [|y l IH]; simpl; [reflexivity|].
  destruct (before y x); [|reflexivity].
  rewrite IH. apply perm_swap.
Qed.

Lemma stable_sort_Permutation l : Permutation (stable_sort before l) l.
Proof.
  induction l as [|x l IH]; simpl; [reflexivity|].
  rewrite insert_by_Permutation. constructor. exact IH.
Qed.

Lemma stable_sort_In l x : In x (stable_sort before l) <-> In x l.
Proof.
  split; apply Permutation_in;
    [apply stable_sort_Permutation|symmetry; apply stable_sort_Permutation].
Qed.

(** A list in which nothing has to move is left as it is. *)
Lemma stable_sort_fixed l :
  (forall a b, In a l -> In b l -> before a b = false) -> stable_sort before l = l.
Proof.
  induction l as [|x l IH]; intros H; simpl; [reflexivity|].
  rewrite IH by (intros a b Ha Hb; apply H; right; assumption).
  destruct l as [|y l]; simpl; [reflexivity|].
  rewrite H; [reflexivity|right; left; reflexivity|left; reflexivity].
Qed.

End StableSort.

Section SortAscending.

Context {A : Type}.
Variable key : A -> Z.

Lemma insert_ascending_sorted x l :
  StronglySorted (fun a b => key a <= key b) l ->
  StronglySorted (fun a b => key a <= key b) (insert_by (fun a b => key a <? key b) x l).
Proof.
  induction 1 as [|y l Hs IH Hy]; simpl.
  - repeat constructor.
  - destruct (Z.ltb_spec (key y) (key x)) as [Hlt|Hge].
    + constructor; [exact IH|]. rewrite Forall_forall in *. intros z Hz.
      eapply Permutation_in in Hz; [|apply insert_by_Permutation].
      destruct Hz as [<-|Hz]; [lia|auto].
    + constructor; [constructor; assumption|].
      constructor; [exact Hge|]. rewrite Forall_forall in *.
      intros z Hz. specialize (Hy z Hz). simpl in *. lia.
Qed.

Lemma sort_ascending_sorted l : StronglySorted (fun a b => key a <= key b) (sort_ascending key l).
Proof.
  unfold sort_ascending. induction l as [|x l IH]; simpl; [constructor|].
  apply insert_ascending_sorted. exact IH.
Qed.

(** Stability: the elements of any one key keep their relative order. *)
Lemma insert_ascending_filter k x l :
  filter (fun a => key a =? k) (insert_by (fun a b => key a <? key b) x l) =
  filter (fun a => key a =? k) (x :: l).
Proof.
  induction l as [|y l IH]; simpl; [reflexivity|].
  destruct (Z.ltb_spec (key y) (key x)) as [Hlt|Hge]; [|reflexivity].
  simpl. rewrite IH. simpl.
  destruct (Z.eqb_spec (key x) k), (Z.eqb_spec (key y) k); try reflexivity. lia.
Qed.

Lemma sort_ascending_stable k l :
  filter (fun a => key a =? k) (sort_ascending key l) = filter (fun a => key a =? k) l.
Proof.
  unfold sort_ascending. induction l as [|x l IH]; simpl; [reflexivity|].
  rewrite insert_ascending_filter. simpl. rewrite IH. reflexivity.
Qed.

End SortAscending.

(* ------------------------------------------------------------------ *)
(** ** Subsequences *)

Lemma subsequence_refl {A : Type} (l : list A) : subsequence l l.
Proof. induction l; constructor; assumption. Qed.

Lemma subsequence_trans {A : Type} (l1 l2 l3 : list A) :
  subsequence l1 l2 -> subsequence l2 l3 -> subsequence l1 l3.
Proof.
  intros H12 H23. revert l1 H12.
  induction H23 as [|x l2 l3 H IH|x l2 l3 H IH]; intros l1 H12.
  - exact H12.
  - inversion H12; subst; constructor; auto.
  - constructor. auto.
Qed.

Lemma subsequence_filter {A : Type} (f : A -> bool) (l : list A) :
  subsequence (filter f l) l.
Proof.
  induction l as [|x l IH]; simpl; [constructor|].
  destruct (f x); constructor; exact IH.
Qed.

Lemma subsequence_map {A B : Type} (f : A -> B) (l1 l2 : list A) :
  subsequence l1 l2 -> subsequence (map f l1) (map f l2).
Proof. induction 1; simpl; constructor; assumption. Qed.

Lemma subsequence_In {A : Type} (l1 l2 : list A) x :
  subsequence l1 l2 -> In x l1 -> In x l2.
Proof. induction 1; simpl; intuition. Qed.

(* ------------------------------------------------------------------ *)
(** ** Grouping by location *)

Lemma group_listings_by_location_unfold listings :
  group_listings_by_location listings =
  map (fun kv => (fst kv, sort_ascending Listing.price_in_cents (snd kv)))
      (collect_by_location listings).
Proof. reflexivity. Qed.

Lemma collect_by_location_snoc listings l :
  collect_by_location (listings ++ [l]) =
  append_at (Listing.location_id l) l (collect_by_location listings).
Proof. unfold collect_by_location. rewrite fold_left_app. reflexivity. Qed.

Lemma append_at_In k v d k' vs' :
  In (k', vs') (append_at k v d) ->
  In (k', vs') d \/
  (k' = k /\ ((exists vs, In (k, vs) d /\ vs' = vs ++ [v]) \/ vs' = [v])).
Proof.
  induction d as [|[k0 vs0] d IH]; simpl.
  - intros [[= <- <-]|[]]. right. auto.
  - destruct (String.eqb_spec k0 k) as [-> | Hne]; simpl.
    + intros [[= <- <-]|H]; [|auto]. right. split; [reflexivity|]. left. eauto.
    + intros [H|H]; [auto|]. destruct (IH H) as [H'|[-> [[vs [H1 H2]]|H']]]; auto.
      right. split; [reflexivity|]. left. eauto.
Qed.

Lemma append_at_keys k v d :
  map fst (append_at k v d) =
  if existsb (String.eqb k) (map fst d) then map fst d else map fst d ++ [k].
Proof.
  induction d as [|[k0 vs0] d IH]; simpl; [reflexivity|].
  rewrite (String.eqb_sym k k0).
  destruct (String.eqb k0 k); simpl; [reflexivity|].
  rewrite IH. destruct (existsb (String.eqb k) (map fst d)); reflexivity.
Qed.

(** Every list of the dictionary holds listings of the catalog, all of the
    list's own location. *)
Lemma collect_by_location_sound listings k vs l :
  In (k, vs) (collect_by_location listings) -> In l vs ->
  In l listings /\ Listing.location_id l = k.
Proof.
  revert k vs l. induction listings as [|x listings IH] using rev_ind; intros k vs l.
  - intros [].
  - rewrite collect_by_location_snoc. intros H Hl.
    apply append_at_In in H. destruct H as [H|[-> [[vs0 [H ->]] | ->]]].
    + destruct (IH _ _ _ H Hl). split; [apply in_or_app|]; auto.
    + apply in_app_or in Hl. destruct Hl as [Hl|[<-|[]]].
      * destruct (IH _ _ _ H Hl). split; [apply in_or_app|]; auto.
      * split; [apply in_or_app; right; left|]; reflexivity.
    + destruct Hl as [<-|[]]. split; [apply in_or_app; right; left|]; reflexivity.
Qed.

Lemma collect_by_location_NoDup listings k vs :
  NoDup (map Listing.id listings) ->
  In (k, vs) (collect_by_location listings) -> NoDup (map Listing.id vs).
Proof.
  revert k vs. induction listings as [|x listings IH] using rev_ind; intros k vs Hn.
  - intros [].
  - rewrite collect_by_location_snoc. intros H.
    rewrite map_app in Hn. simpl in Hn.
    pose proof (NoDup_remove_1 _ _ _ Hn) as Hn1. rewrite app_nil_r in Hn1.
    apply NoDup_remove_2 in Hn. rewrite app_nil_r in Hn.
    apply append_at_In in H. destruct H as [H|[-> [[vs0 [H ->]] | ->]]].
    + eauto.
    + rewrite map_app. simpl. apply NoDup_app.
      * eauto.
      * repeat constructor. intros [].
      * intros i Hi [<-|[]]. apply Hn. apply in_map_iff in Hi.
        destruct Hi as [l [Hl1 Hl2]]. apply in_map_iff. exists l. split; [exact Hl1|].
        eapply collect_by_location_sound; eassumption.
    + simpl. repeat constructor. intros [].
Qed.

Lemma group_listings_by_location_In listings k pool :
  In (k, pool) (group_listings_by_location listings) ->
  exists vs, In (k, vs) (collect_by_location listings) /\ Permutation pool vs /\
             price_ascending pool.
Proof.
  rewrite group_listings_by_location_unfold, in_map_iff.
  intros [[k0 vs] [[= <- <-] H]]. exists vs. split; [exact H|].
  split; [apply stable_sort_Permutation|apply sort_ascending_sorted].
Qed.

Lemma filter_filter {A : Type} (f g : A -> bool) (l : list A) :
  filter f (filter g l) = filter (fun x => g x && f x) l.
Proof.
  induction l as [|x l IH]; simpl; [reflexivity|].
  destruct (g x); simpl; [destruct (f x)|]; rewrite IH; reflexivity.
Qed.

(** The keys of the dictionary are the location ids of the catalog, in the
    order of their first occurrence. *)
Lemma fold_append_at_keys listings d :
  map fst (fold_left (fun locations listing =>
                        append_at (Listing.location_id listing) listing locations)
                     listings d) =
  map fst d ++
  filter (fun k => negb (existsb (String.eqb k) (map fst d)))
         (first_occurrences (map Listing.location_id listings)).
Proof.
  revert d. induction listings as [|x listings IH]; intros d; simpl.
  - rewrite app_nil_r. reflexivity.
  - rewrite IH, append_at_keys.
    destruct (existsb (String.eqb (Listing.location_id x)) (map fst d)) eqn:E; simpl.
    + f_equal. rewrite filter_filter. apply filter_ext_in. intros k _.
      destruct (String.eqb_spec k (Listing.location_id x)) as [-> | Hne]; simpl.
      * rewrite E. reflexivity.
      * reflexivity.
    + rewrite <- app_assoc. simpl. f_equal. f_equal.
      rewrite filter_filter. apply filter_ext_in. intros k _.
      rewrite existsb_app. simpl. rewrite orb_false_r, negb_orb.
      rewrite (String.eqb_sym k). apply andb_comm.
Qed.

Lemma group_listings_by_location_keys listings :
  map fst (group_listings_by_location listings) =
  first_occurrences (map Listing.location_id listings).
Proof.
  rewrite group_listings_by_location_unfold, map_map. simpl.
  unfold collect_by_location. rewrite fold_append_at_keys. simpl.
  induction (first_occurrences (map Listing.location_id listings)) as [|k l IH];
    simpl; congruence.
Qed.

Lemma first_occurrences_In ids x : In x (first_occurrences ids) <-> In x ids.
Proof.
  induction ids as [|y ids IH]; simpl; [reflexivity|].
  rewrite filter_In, IH. destruct (String.eqb_spec x y) as [-> | Hne]; simpl.
  - intuition.
  - intuition congruence.
Qed.

Lemma first_occurrences_NoDup ids : NoDup (first_occurrences ids).
Proof.
  induction ids as [|y ids IH]; simpl; constructor.
  - rewrite filter_In. rewrite String.eqb_refl. simpl. intros [_ H]. discriminate.
  - apply NoDup_filter. exact IH.
Qed.

(* ------------------------------------------------------------------ *)
(** ** Location solver *)

Lemma place_groups_some carLength cheapest ordering :
  forall pool used0 p0 used p,
  place_groups carLength cheapest ordering pool used0 p0 = Some (used, p) ->
  exists u, greedy carLength ordering pool = Some u /\
            used = used0 ++ u /\ p = p0 + sum_prices u.
Proof.
  induction ordering as [|g rest IH]; intros pool used0 p0 used p; simpl.
  - intros [= <- <-]. exists []. rewrite app_nil_r. unfold sum_prices. simpl.
    repeat split. lia.
  - destruct (reaches p0 cheapest); [discriminate|].
    destruct (find_cheapest_spot_optimized g carLength pool) as [spot|]; [|discriminate].
    intros H. apply IH in H. destruct H as [u [-> [-> ->]]].
    exists (spot :: u). rewrite <- app_assoc, sum_prices_cons.
    repeat split. lia.
Qed.

Lemma fold_try_ordering_greedy carLength pool os :
  forall state a,
  (forall b, snd state = Some b ->
     greedy carLength (Arrangement.split_of_cars b) pool
       = Some (Arrangement.listings_used b) /\
     Arrangement.total_price_in_cents b = sum_prices (Arrangement.listings_used b)) ->
  snd (fold_left (try_ordering carLength pool) os state) = Some a ->
  greedy carLength (Arrangement.split_of_cars a) pool
    = Some (Arrangement.listings_used a) /\
  Arrangement.total_price_in_cents a = sum_prices (Arrangement.listings_used a).
Proof.
  induction os as [|o os IH]; intros state a Hst; simpl; [apply Hst|].
  apply IH. intros b. unfold try_ordering.
  destruct (place_groups carLength (fst state) o pool [] 0) as [[used p]|] eqn:E;
    [|apply Hst].
  destruct (beats p (fst state)); [|apply Hst].
  simpl. intros [= <-]. simpl. apply place_groups_some in E.
  destruct E as [u [G [-> ->]]]. simpl. split; [exact G|lia].
Qed.

Lemma find_cheapest_for_location_greedy set_order numCars carLength pool price_to_beat a :
  find_cheapest_for_location set_order numCars carLength pool price_to_beat = Some a ->
  greedy carLength (Arrangement.split_of_cars a) pool
    = Some (Arrangement.listings_used a) /\
  Arrangement.total_price_in_cents a = sum_prices (Arrangement.listings_used a).
Proof.
  unfold find_cheapest_for_location. apply fold_try_ordering_greedy.
  simpl. discriminate.
Qed.

(** With no car to park the three loops have nothing to visit. *)
Lemma find_cheapest_for_location_no_cars set_order numCars carLength pool price_to_beat :
  numCars <= 0 ->
  find_cheapest_for_location set_order numCars carLength pool price_to_beat = None.
Proof.
  intros H. unfold find_cheapest_for_location, orderings.
  rewrite range_nil by lia. reflexivity.
Qed.

Lemma remove_used_cons spot used available :
  remove_used (spot :: used) available =
  remove_used used
    (if contains available spot then remove_first spot available else available).
Proof. reflexivity. Qed.

Lemma remove_used_In used available x :
  In x (remove_used used available) -> In x available.
Proof.
  revert available. induction used as [|spot used IH]; intros available; [auto|].
  rewrite remove_used_cons. intros H. apply IH in H.
  destruct (contains available spot); [eapply remove_first_In|]; exact H.
Qed.

Lemma remove_used_NoDup used available :
  NoDup available -> NoDup (remove_used used available).
Proof.
  revert available. induction used as [|spot used IH]; intros available Hn; [exact Hn|].
  rewrite remove_used_cons. apply IH.
  destruct (contains available spot); [apply remove_first_NoDup|]; exact Hn.
Qed.

Lemma remove_used_not_In used available x :
  NoDup available -> In x used -> ~ In x (remove_used used available).
Proof.
  revert available. induction used as [|spot used IH]; intros available Hn; [intros []|].
  rewrite remove_used_cons. intros [->|Hx].
  - intros H. apply remove_used_In in H.
    destruct (contains available x) eqn:E.
    + exact (remove_first_not_In _ _ Hn H).
    + apply contains_In in H. congruence.
  - apply IH; [|exact Hx].
    destruct (contains available spot); [apply remove_first_NoDup|]; exact Hn.
Qed.

Lemma place_request_placed set_order sorted_request :
  forall available used0 p0 p used,
  place_request set_order sorted_request available used0 p0 = Some (p, used) ->
  exists u q, all_groups_placed set_order sorted_request available u q /\
              used = used0 ++ u /\ p = p0 + q.
Proof.
  induction sorted_request as [|v rest IH]; intros available used0 p0 p used; simpl.
  - intros [= <- <-]. exists [], 0. rewrite app_nil_r.
    split; [constructor|]. split; [reflexivity|lia].
  - destruct (find_cheapest_for_location set_order (Vehicle.quantity v)
                (Vehicle.length v) available Inf) as [a|] eqn:E; [|discriminate].
    intros H. apply IH in H. destruct H as [u [q [Hp [-> ->]]]].
    exists (Arrangement.listings_used a ++ u), (Arrangement.total_price_in_cents a + q).
    split; [econstructor; eassumption|]. rewrite app_assoc. split; [reflexivity|lia].
Qed.


Lemma all_groups_placed_incl set_order sorted_request pool used price :
  all_groups_placed set_order sorted_request pool used price -> incl used pool.
Proof.
  induction 1 as [pool|v rest pool a used price Ha Hp IH]; [intros x []|].
  apply find_cheapest_for_location_greedy in Ha. destruct Ha as [Hg _].
  apply greedy_incl in Hg. intros x Hx. apply in_app_or in Hx.
  destruct Hx as [Hx|Hx]; [auto|]. eapply remove_used_In. apply IH. exact Hx.
Qed.

Lemma all_groups_placed_NoDup set_order sorted_request pool used price :
  all_groups_placed set_order sorted_request pool used price ->
  NoDup pool -> NoDup used.
Proof.
  induction 1 as [pool|v rest pool a used price Ha Hp IH]; intros Hn; [constructor|].
  apply find_cheapest_for_location_greedy in Ha. destruct Ha as [Hg _].
  apply NoDup_app.
  - eapply greedy_NoDup; eassumption.
  - apply IH. apply remove_used_NoDup. exact Hn.
  - intros x Hx Hx'. eapply all_groups_placed_incl in Hx'; [|exact Hp].
    exact (remove_used_not_In _ _ _ Hn Hx Hx').
Qed.

(** Each group of the request has its own arrangement, found in a part of
    the pool and made of listings that the location ends up using. *)
Lemma all_groups_placed_each set_order sorted_request pool used price :
  all_groups_placed set_order sorted_request pool used price ->
  forall v, In v sorted_request ->
  exists remaining a,
    incl remaining pool /\
    find_cheapest_for_location set_order (Vehicle.quantity v) (Vehicle.length v)
      remaining Inf = Some a /\
    incl (Arrangement.listings_used a) used.
Proof.
  induction 1 as [pool|v0 rest pool a used price Ha Hp IH]; intros v; [intros []|].
  intros [<-|Hv].
  - exists pool, a. split; [apply incl_refl|]. split; [exact Ha|].
    apply incl_appl, incl_refl.
  - destruct (IH v Hv) as [remaining [a' [H1 [H2 H3]]]].
    exists remaining, a'. split; [|split; [exact H2|apply incl_appr; exact H3]].
    intros x Hx. eapply remove_used_In. apply H1. exact Hx.
Qed.

Lemma place_request_no_cars set_order sorted_request v :
  In v sorted_request -> Vehicle.quantity v <= 0 ->
  forall available used0 p0,
  place_request set_order sorted_request available used0 p0 = None.
Proof.
  intros Hv Hq. induction sorted_request as [|v0 rest IH]; [destruct Hv|].
  intros available used0 p0. simpl.
  destruct (find_cheapest_for_location set_order (Vehicle.quantity v0)
              (Vehicle.length v0) available Inf) as [a|] eqn:E; [|reflexivity].
  destruct Hv as [->|Hv].
  - rewrite find_cheapest_for_location_no_cars in E by exact Hq. discriminate.
  - apply IH. exact Hv.
Qed.

Lemma solve_location_placed set_order vehicle_request location r :
  solve_location set_order vehicle_request location = Some r ->
  exists used,
    all_groups_placed set_order (sort_descending demand vehicle_request)
      (snd location) used (Result.total_price_in_cents r) /\
    Result.location_id r = fst location /\
    Result.listing_ids r = map Listing.id used.
Proof.
  unfold solve_location.
  destruct (place_request set_order (sort_descending demand vehicle_request)
              (snd location) [] 0) as [[p used]|] eqn:E; [|discriminate].
  intros [= <-]. apply place_request_placed in E.
  destruct E as [u [q [Hp [-> ->]]]]. exists u. simpl. auto.
Qed.

Lemma in_feasible_results set_order vehicle_request grouped r :
  In r (feasible_results set_order vehicle_request grouped) <->
  exists location, In location grouped /\
                   solve_location set_order vehicle_request location = Some r.
Proof.
  unfold feasible_results. rewrite in_flat_map. split.
  - intros [location [H1 H2]]. exists location. split; [exact H1|].
    destruct (solve_location set_order vehicle_request location) as [r'|];
      [|destruct H2]. destruct H2 as [->|[]]. reflexivity.
  - intros [location [H1 H2]]. exists location. split; [exact H1|].
    rewrite H2. left. reflexivity.
Qed.

Lemma in_find_best_solution set_order vehicle_request all_listings r :
  In r (find_best_solution_with_grouping set_order vehicle_request all_listings) <->
  exists location, In location (group_listings_by_location all_listings) /\
                   solve_location set_order vehicle_request location = Some r.
Proof.
  unfold find_best_solution_with_grouping, sort_ascending.
  rewrite stable_sort_In. apply in_feasible_results.
Qed.

Lemma feasible_results_locations set_order vehicle_request grouped :
  subsequence (map Result.location_id (feasible_results set_order vehicle_request grouped))
              (map fst grouped).
Proof.
  induction grouped as [|location grouped IH]; simpl; [constructor|].
  destruct (solve_location set_order vehicle_request location) as [r|] eqn:E; simpl.
  - apply solve_location_placed in E. destruct E as [_ [_ [-> _]]].
    constructor. exact IH.
  - constructor. exact IH.
Qed.

Lemma subsequence_cons_inv {A : Type} (x : A) (l1 l : list A) :
  subsequence (x :: l1) l -> exists m1 m2, l = m1 ++ x :: m2 /\ subsequence l1 m2.
Proof.
  induction l as [|y l IH]; intros H; inversion H; subst.
  - exists [], l. auto.
  - destruct (IH H2) as [m1 [m2 [-> Hs]]]. exists (y :: m1), m2. auto.
Qed.

Lemma subsequence_app_inv {A : Type} (l1 l2 l : list A) :
  subsequence (l1 ++ l2) l ->
  exists m1 m2, l = m1 ++ m2 /\ subsequence l1 m1 /\ subsequence l2 m2.
Proof.
  revert l. induction l1 as [|x l1 IH]; intros l H; simpl in H.
  - exists [], l. repeat split; [constructor|exact H].
  - apply subsequence_cons_inv in H. destruct H as [n1 [n2 [-> H]]].
    destruct (IH _ H) as [m1 [m2 [-> [H1 H2]]]].
    exists (n1 ++ x :: m1), m2. rewrite <- app_assoc. repeat split; [|exact H2].
    clear - H1. induction n1; simpl; constructor; assumption.
Qed.

(** Two elements in order in a subsequence are in the same order in the
    whole list. *)
Lemma subsequence_order {A : Type} (x y z l : list A) (u v : A) :
  subsequence (x ++ u :: y ++ v :: z) l ->
  exists a b c, l = a ++ u :: b ++ v :: c.
Proof.
  intros H. apply subsequence_app_inv in H. destruct H as [m1 [m2 [-> [_ H]]]].
  apply subsequence_cons_inv in H. destruct H as [n1 [n2 [-> H]]].
  apply subsequence_app_inv in H. destruct H as [k1 [k2 [-> [_ H]]]].
  apply subsequence_cons_inv in H. destruct H as [j1 [j2 [-> _]]].
  exists (m1 ++ n1), (k1 ++ j1), j2. rewrite <- !app_assoc. reflexivity.
Qed.

Lemma NoDup_map_injective_on {A B : Type} (f : A -> B) (l : list A) x y :
  NoDup (map f l) -> In x l -> In y l -> f x = f y -> x = y.
Proof.
  induction l as [|a l IH]; simpl; [intros _ []|].
  intros Hn. inversion Hn as [|? ? Ha Hl]; subst.
  intros [->|Hx] [->|Hy] E; auto.
  - exfalso. apply Ha. rewrite E. apply in_map. exact Hy.
  - exfalso. apply Ha. rewrite <- E. apply in_map. exact Hx.
Qed.

Lemma NoDup_map_incl {A B : Type} (f : A -> B) (used pool : list A) :
  NoDup (map f pool) -> incl used pool -> NoDup used -> NoDup (map f used).
Proof.
  intros Hp Hi. induction 1 as [|x used Hx Hu IH]; simpl; constructor.
  - intros H. apply in_map_iff in H. destruct H as [y [E Hy]]. apply Hx.
    assert (y = x); [|congruence].
    apply (NoDup_map_injective_on f pool); auto; apply Hi; simpl; auto.
  - apply IH. intros y Hy. apply Hi. right. exact Hy.
Qed.

(* ------------------------------------------------------------------ *)
(** ** The ranked answer *)

(** What a result of the answer stands for: a location of the grouped
    catalog at which every group of the request was placed. *)
Lemma find_best_solution_result set_order vehicle_request all_listings r :
  In r (find_best_solution_with_grouping set_order vehicle_request all_listings) ->
  exists pool used,
    In (Result.location_id r, pool) (group_listings_by_location all_listings) /\
    all_groups_placed set_order (sort_descending demand vehicle_request) pool used
      (Result.total_price_in_cents r) /\
    Result.listing_ids r = map Listing.id used.
Proof.
  intros H. apply in_find_best_solution in H. destruct H as [[k pool] [Hin Hs]].
  apply solve_location_placed in Hs. destruct Hs as [used [Hp [Hl Hi]]].
  simpl in *. exists pool, used. rewrite Hl. auto.
Qed.

Lemma group_pool_listings all_listings k pool l :
  In (k, pool) (group_listings_by_location all_listings) -> In l pool ->
  In l all_listings /\ Listing.location_id l = k.
Proof.
  intros H Hl. apply group_listings_by_location_In in H.
  destruct H as [vs [Hvs [Hperm _]]].
  eapply collect_by_location_sound; [exact Hvs|].
  eapply Permutation_in; eassumption.
Qed.

Lemma group_pool_NoDup all_listings k pool :
  NoDup (map Listing.id all_listings) ->
  In (k, pool) (group_listings_by_location all_listings) ->
  NoDup (map Listing.id pool).
Proof.
  intros Hn H. apply group_listings_by_location_In in H.
  destruct H as [vs [Hvs [Hperm _]]].
  eapply Permutation_NoDup; [symmetry; apply Permutation_map; exact Hperm|].
  eapply collect_by_location_NoDup; eassumption.
Qed.

Lemma find_best_solution_stable set_order vehicle_request all_listings p :
  subsequence
    (map Result.location_id
       (filter (fun r => Result.total_price_in_cents r =? p)
          (find_best_solution_with_grouping set_order vehicle_request all_listings)))
    (first_occurrences (map Listing.location_id all_listings)).
Proof.
  unfold find_best_solution_with_grouping. rewrite sort_ascending_stable.
  rewrite <- group_listings_by_location_keys.
  eapply subsequence_trans; [|apply feasible_results_locations].
  apply subsequence_map, subsequence_filter.
Qed.

(** C1, as the code has it: an empty catalog yields the empty sequence,
    whatever the request; an empty request yields one result for every
    location of the catalog, in the order of first occurrence, each with
    total price 0 and no listing id. *)
Theorem empty_input_results (set_order : list (list Z) -> list (list Z)) :
  (forall vehicle_request,
     find_best_solution_with_grouping set_order vehicle_request [] = []) /\
  (forall all_listings,
     find_best_solution_with_grouping set_order [] all_listings =
     map free_result (first_occurrences (map Listing.location_id all_listings))).
Proof.
  split; [reflexivity|]. intros all_listings.
  rewrite <- group_listings_by_location_keys.
  unfold find_best_solution_with_grouping.
  generalize (group_listings_by_location all_listings). intros grouped.
  assert (feasible_results set_order [] grouped = map free_result (map fst grouped)) as ->.
  { induction grouped as [|location grouped IH]; simpl; [reflexivity|].
    rewrite IH. reflexivity. }
  apply stable_sort_fixed. intros a b Ha Hb.
  apply in_map_iff in Ha, Hb. destruct Ha as [? [<- _]]. destruct Hb as [? [<- _]].
  reflexivity.
Qed.

(** C6: every result of the answer belongs to a location of the catalog at
    which every vehicle group of the request was given an arrangement made
    of listings the result reports; the answer is in ascending order of
    total price; and of two results with the same total price the one that
    comes first is the one whose location occurs first in the catalog. *)
Theorem ranked_results (set_order : list (list Z) -> list (list Z))
    (vehicle_request : list Vehicle.t) (all_listings : list Listing.t) :
  let answer := find_best_solution_with_grouping set_order vehicle_request all_listings in
  (forall r, In r answer ->
     exists pool used,
       In (Result.location_id r, pool) (group_listings_by_location all_listings) /\
       all_groups_placed set_order (sort_descending demand vehicle_request) pool used
         (Result.total_price_in_cents r) /\
       Result.listing_ids r = map Listing.id used /\
       forall v, In v vehicle_request ->
         exists remaining a,
           incl remaining pool /\
           find_cheapest_for_location set_order (Vehicle.quantity v) (Vehicle.length v)
             remaining Inf = Some a /\
           incl (map Listing.id (Arrangement.listings_used a)) (Result.listing_ids r)) /\
  StronglySorted
    (fun a b => Result.total_price_in_cents a <= Result.total_price_in_cents b) answer /\
  (forall before r1 between r2 after,
     answer = before ++ r1 :: between ++ r2 :: after ->
     Result.total_price_in_cents r1 = Result.total_price_in_cents r2 ->
     exists a b c,
       first_occurrences (map Listing.location_id all_listings) =
       a ++ Result.location_id r1 :: b ++ Result.location_id r2 :: c).
Proof.
  intros answer. split; [|split].
  - intros r Hr. apply find_best_solution_result in Hr.
    destruct Hr as [pool [used [H1 [H2 H3]]]]. exists pool, used.
    repeat split; try assumption. intros v Hv.
    destruct (all_groups_placed_each _ _ _ _ _ H2 v) as [remaining [a [Ha [Hb Hc]]]].
    { unfold sort_descending. apply stable_sort_In. exact Hv. }
    exists remaining, a. repeat split; try assumption.
    rewrite H3. apply incl_map. exact Hc.
  - apply sort_ascending_sorted.
  - intros before r1 between r2 after E Hp.
    pose proof (find_best_solution_stable set_order vehicle_request all_listings
                  (Result.total_price_in_cents r1)) as Hs.
    fold answer in Hs. rewrite E in Hs.
    rewrite filter_app in Hs. simpl in Hs. rewrite Z.eqb_refl, filter_app in Hs.
    simpl in Hs. rewrite <- Hp, Z.eqb_refl in Hs.
    rewrite map_app in Hs. simpl in Hs. rewrite map_app in Hs. simpl in Hs.
    eapply subsequence_order. exact Hs.
Qed.

(** C8: every listing id of a result is the id of a listing of the catalog
    whose location is the result's location; when the ids of the catalog
    are pairwise distinct, no listing of another location carries that id. *)
Theorem listing_ids_location_local (set_order : list (list Z) -> list (list Z))
    (vehicle_request : list Vehicle.t) (all_listings : list Listing.t)
    (r : Result.t) (i : string) :
  In r (find_best_solution_with_grouping set_order vehicle_request all_listings) ->
  In i (Result.listing_ids r) ->
  (exists l, In l all_listings /\ Listing.id l = i /\
             Listing.location_id l = Result.location_id r) /\
  (NoDup (map Listing.id all_listings) ->
   forall l', In l' all_listings -> Listing.id l' = i ->
              Listing.location_id l' = Result.location_id r).
Proof.
  intros Hr Hi. apply find_best_solution_result in Hr.
  destruct Hr as [pool [used [H1 [H2 H3]]]]. rewrite H3 in Hi.
  apply in_map_iff in Hi. destruct Hi as [l [Hid Hl]].
  apply (all_groups_placed_incl _ _ _ _ _ H2) in Hl.
  destruct (group_pool_listings _ _ _ _ H1 Hl) as [Hin Hloc].
  split; [exists l; auto|].
  intros Hn l' Hin' Hid'.
  assert (l' = l) as -> by (apply (NoDup_map_injective_on Listing.id all_listings);
                            auto; congruence).
  exact Hloc.
Qed.

(** C9: when the ids of the catalog are pairwise distinct, no listing id
    occurs twice in the listing ids of a result. *)
Theorem listing_ids_distinct (set_order : list (list Z) -> list (list Z))
    (vehicle_request : list Vehicle.t) (all_listings : list Listing.t) (r : Result.t) :
  NoDup (map Listing.id all_listings) ->
  In r (find_best_solution_with_grouping set_order vehicle_request all_listings) ->
  NoDup (Result.listing_ids r).
Proof.
  intros Hn Hr. apply find_best_solution_result in Hr.
  destruct Hr as [pool [used [H1 [H2 H3]]]]. rewrite H3.
  pose proof (group_pool_NoDup _ _ _ Hn H1) as Hpool.
  apply (NoDup_map_incl Listing.id used pool Hpool).
  - eapply all_groups_placed_incl. exact H2.
  - eapply all_groups_placed_NoDup; [exact H2|].
    eapply NoDup_map_inv. exact Hpool.
Qed.

(** C10: when the request has a group of quantity 0, the group search for
    that group visits no ordering and returns nothing, every location is
    infeasible, and the answer is empty, for every catalog. *)
Theorem zero_quantity_infeasible (set_order : list (list Z) -> list (list Z))
    (vehicle_request : list Vehicle.t) (all_listings : list Listing.t) (v : Vehicle.t) :
  In v vehicle_request -> Vehicle.quantity v = 0 ->
  orderings set_order (Vehicle.quantity v) = [] /\
  (forall pool,
     find_cheapest_for_location set_order (Vehicle.quantity v) (Vehicle.length v)
       pool Inf = None) /\
  (forall location, solve_location set_order vehicle_request location = None) /\
  find_best_solution_with_grouping set_order vehicle_request all_listings = [].
Proof.
  intros Hv Hq.
  assert (forall location, solve_location set_order vehicle_request location = None) as Hloc.
  { intros location. unfold solve_location.
    rewrite (place_request_no_cars set_order _ v); [reflexivity| |lia].
    unfold sort_descending. apply stable_sort_In. exact Hv. }
  split; [rewrite Hq; reflexivity|].
  split; [intros pool; apply find_cheapest_for_location_no_cars; lia|].
  split; [exact Hloc|].
  unfold find_best_solution_with_grouping.
  assert (feasible_results set_order vehicle_request
            (group_listings_by_location all_listings) = []) as ->; [|reflexivity].
  unfold feasible_results.
  induction (group_listings_by_location all_listings) as [|location grouped IH];
    simpl; [reflexivity|]. rewrite Hloc. exact IH.
Qed.

(* ------------------------------------------------------------------ *)
(** ** A worked scenario: two cars, two small listings *)

Lemma insertion_order_In l x : In x (insertion_order l) <-> In x l.
Proof.
  induction l as [|y l IH]; simpl; [reflexivity|].
  rewrite filter_In, IH. destruct (list_eq_dec Z.eq_dec x y) as [->|Hne]; simpl.
  - intuition.
  - intuition congruence.
Qed.

Lemma insertion_order_distinct : iterates_distinct insertion_order.
Proof.
  intros l. split; [|intros x; apply insertion_order_In].
  induction l as [|y l IH]; simpl; constructor.
  - rewrite filter_In. destruct (list_eq_dec Z.eq_dec y y); [|congruence].
    simpl. intros [_ H]. discriminate.
  - apply NoDup_filter. exact IH.
Qed.

Section Scenario.

Variable set_order : list (list Z) -> list (list Z).
Hypothesis set_order_distinct : iterates_distinct set_order.

Lemma set_order_singleton l x :
  In x l -> (forall y, In y l -> y = x) -> set_order l = [x].
Proof.
  intros Hx Hall. destruct (set_order_distinct l) as [Hn Hin].
  destruct (set_order l) as [|a [|b rest]] eqn:E.
  - apply Hin in Hx. destruct Hx.
  - f_equal. apply Hall, Hin. left. reflexivity.
  - exfalso. assert (a = x) by (apply Hall, Hin; simpl; auto).
    assert (b = x) by (apply Hall, Hin; simpl; auto).
    subst. inversion Hn. simpl in *. tauto.
Qed.

Lemma orderings_two : orderings set_order 2 = [[2]; [1; 1]].
Proof.
  unfold orderings.
  replace (range 1 (2 + 1)) with [1; 2] by reflexivity.
  cbn [flat_map].
  replace (find_partitions 2 (Z.to_nat 1) 1) with [[2]] by reflexivity.
  replace (find_partitions 2 (Z.to_nat 2) 1) with [[1; 1]] by reflexivity.
  cbn [flat_map app].
  replace (permutations [2]) with [[2]] by reflexivity.
  replace (permutations [1; 1]) with [[1; 1]; [1; 1]] by reflexivity.
  rewrite (set_order_singleton [[2]] [2]), (set_order_singleton _ [1; 1]);
    simpl; intuition.
Qed.

(** C5: one vehicle group of two vehicles of length 10 and two listings at
    one location, each of width 10, length 10 and price 300: the answer is
    exactly one result, of total price 600 and with both listing ids; the
    group search splits the group into two sub-groups of one vehicle, and a
    single sub-group of two fits neither listing. *)
Theorem two_cars_two_listings (id1 id2 loc : string) :
  let l1 := Listing.mk id1 loc 10 10 300 in
  let l2 := Listing.mk id2 loc 10 10 300 in
  find_best_solution_with_grouping set_order [Vehicle.mk 10 2] [l1; l2]
    = [Result.mk loc 600 [id1; id2]] /\
  find_cheapest_for_location set_order 2 10 [l1; l2] Inf
    = Some (Arrangement.mk [1; 1] [l1; l2] 600) /\
  fits 2 10 l1 = false /\ fits 2 10 l2 = false.
Proof.
  intros l1 l2.
  assert (find_cheapest_for_location set_order 2 10 [l1; l2] Inf
          = Some (Arrangement.mk [1; 1] [l1; l2] 600)) as Hsearch.
  { unfold find_cheapest_for_location. rewrite orderings_two.
    cbn [fold_left]. unfold try_ordering.
    repeat (cbn - [Listing.eqb]; rewrite ?Listing_eqb_refl). reflexivity. }
  split; [|split; [exact Hsearch|split; reflexivity]].
  unfold find_best_solution_with_grouping.
  assert (group_listings_by_location [l1; l2] = [(loc, [l1; l2])]) as ->.
  { unfold group_listings_by_location.
    repeat (cbn - [String.eqb]; rewrite ?String.eqb_refl). reflexivity. }
  cbn [feasible_results flat_map]. unfold solve_location.
  replace (sort_descending demand [Vehicle.mk 10 2]) with [Vehicle.mk 10 2]
    by reflexivity.
  cbn [place_request snd fst Vehicle.quantity Vehicle.length]. rewrite Hsearch.
  unfold remove_used, contains.
  repeat (cbn - [Listing.eqb]; rewrite ?Listing_eqb_refl). reflexivity.
Qed.

End Scenario.

(* ------------------------------------------------------------------ *)
(** ** The theorems at concrete inputs *)

Example partition_count_7_3 : partition_count 7 3 = 4%nat.
Proof. reflexivity. Qed.

Example find_partitions_7_3 :
  find_partitions 7 3 1 = [[1; 1; 5]; [1; 2; 4]; [1; 3; 3]; [2; 2; 3]].
Proof. reflexivity. Qed.

Example orderings_4 :
  orderings insertion_order 4 =
  [[4]; [1; 3]; [3; 1]; [2; 2]; [1; 1; 2]; [1; 2; 1]; [2; 1; 1]; [1; 1; 1; 1]].
Proof. reflexivity. Qed.

(** Two feasible locations with the same total keep the order in which
    their locations first occur. *)
Example ranked_tie :
  find_best_solution_with_grouping insertion_order [Vehicle.mk 10 1]
    [Listing.mk "x" "L2" 10 10 300; Listing.mk "y" "L1" 10 10 300;
     Listing.mk "z" "L3" 10 10 200] =
  [Result.mk "L3" 200 ["z"%string]; Result.mk "L2" 300 ["x"%string];
   Result.mk "L1" 300 ["y"%string]].
Proof. reflexivity. Qed.

(** C1 as stated fails: an empty request over a catalog of one listing
    yields a result, not the empty sequence. *)
Lemma empty_request_counterexample :
  find_best_solution_with_grouping insertion_order [] [listing_a]
    = [Result.mk "L1" 0 []] /\
  find_best_solution_with_grouping insertion_order [] [listing_a] <> [].
Proof. split; [reflexivity|discriminate]. Qed.

Lemma find_partitions_exact_witness :
  1 <= 7 /\ (1 <= 3)%nat /\ 1 <= 1 /\
  NoDup (find_partitions 7 3 1) /\
  (forall t, In t (find_partitions 7 3 1) <-> is_partition 7 3 1 t) /\
  List.length (find_partitions 7 3 1) = partition_count (Z.to_nat 7) 3.
Proof.
  assert (1 <= 7) as H1 by lia.
  assert (1 <= 3)%nat as H2 by lia.
  assert (1 <= 1) as H3 by lia.
  split; [exact H1|]. split; [exact H2|]. split; [exact H3|].
  exact (find_partitions_exact 7 3 1 H1 H2 H3).
Defined.

Lemma two_cars_two_listings_witness :
  iterates_distinct insertion_order /\
  find_best_solution_with_grouping insertion_order [Vehicle.mk 10 2]
    [listing_a; listing_b] = [Result.mk "L1" 600 ["a"%string; "b"%string]].
Proof.
  split; [exact insertion_order_distinct|].
  exact (proj1 (two_cars_two_listings insertion_order insertion_order_distinct
                  "a" "b" "L1")).
Defined.

Lemma find_cheapest_spot_optimal_witness :
  price_ascending [listing_a; listing_c] /\
  (exists l, In l [listing_a; listing_c] /\ fits 2 10 l = true) /\
  exists spot,
    find_cheapest_spot_optimized 2 10 [listing_a; listing_c] = Some spot /\
    In spot [listing_a; listing_c] /\ fits 2 10 spot = true /\
    forall l, In l [listing_a; listing_c] -> fits 2 10 l = true ->
      Listing.price_in_cents spot <= Listing.price_in_cents l.
Proof.
  assert (price_ascending [listing_a; listing_c]) as H1
    by (repeat constructor; simpl; lia).
  assert (exists l, In l [listing_a; listing_c] /\ fits 2 10 l = true) as H2
    by (exists listing_c; split; [right; left; reflexivity|reflexivity]).
  split; [exact H1|]. split; [exact H2|].
  exact (proj1 (find_cheapest_spot_optimal 2 10 [listing_a; listing_c] H1) H2).
Defined.

Lemma listing_ids_distinct_witness :
  NoDup (map Listing.id [listing_a; listing_b]) /\
  In (Result.mk "L1" 600 ["a"%string; "b"%string])
     (find_best_solution_with_grouping insertion_order [Vehicle.mk 10 2]
        [listing_a; listing_b]) /\
  NoDup ["a"%string; "b"%string].
Proof.
  assert (NoDup (map Listing.id [listing_a; listing_b])) as H1.
  { repeat constructor; simpl; intuition discriminate. }
  assert (In (Result.mk "L1" 600 ["a"%string; "b"%string])
            (find_best_solution_with_grouping insertion_order [Vehicle.mk 10 2]
               [listing_a; listing_b])) as H2
    by (left; reflexivity).
  split; [exact H1|]. split; [exact H2|].
  exact (listing_ids_distinct insertion_order [Vehicle.mk 10 2]
           [listing_a; listing_b] _ H1 H2).
Defined.

Lemma zero_quantity_infeasible_witness :
  In (Vehicle.mk 10 0) [Vehicle.mk 10 1; Vehicle.mk 10 0] /\
  Vehicle.quantity (Vehicle.mk 10 0) = 0 /\
  find_best_solution_with_grouping insertion_order
    [Vehicle.mk 10 1; Vehicle.mk 10 0] [listing_a; listing_c] = [].
Proof.
  assert (In (Vehicle.mk 10 0) [Vehicle.mk 10 1; Vehicle.mk 10 0]) as H1
    by (right; left; reflexivity).
  assert (Vehicle.quantity (Vehicle.mk 10 0) = 0) as H2 by reflexivity.
  split; [exact H1|]. split; [exact H2|].
  exact (proj2 (proj2 (proj2
           (zero_quantity_infeasible insertion_order
              [Vehicle.mk 10 1; Vehicle.mk 10 0] [listing_a; listing_c] _ H1 H2)))).
Defined.

(* ------------------------------------------------------------------ *)
(** ** Geometry: group size and rotation *)

Lemma fits_group_monotone carLength groupSize smaller listing :
  0 <= carLength -> smaller <= groupSize ->
  fits groupSize carLength listing = true -> fits smaller carLength listing = true.
Proof.
  intros Hc Hs. rewrite !fits_dominates. unfold dominates, endToEnd, sideBySide.
  cbn [fst snd].
  assert (carLength * smaller <= carLength * groupSize)
    by (apply Z.mul_le_mono_nonneg_l; lia).
  lia.
Qed.

(** X1: for a non-negative vehicle length, a listing that is compatible with
    a sub-group is compatible with every smaller sub-group. *)
Theorem fits_smaller_group (carLength groupSize smaller : Z) (listing : Listing.t) :
  0 <= carLength -> smaller <= groupSize ->
  fits groupSize carLength listing = true -> fits smaller carLength listing = true.
Proof. apply fits_group_monotone. Qed.

(** X2: for a single vehicle the two orientations are each other's quarter
    turn, so turning the listing does not change compatibility; for two
    vehicles there is a listing that fits and whose quarter turn does not. *)
Theorem fits_rotation (carLength : Z) (listing : Listing.t) :
  fits 1 carLength (rotate listing) = fits 1 carLength listing /\
  exists c l, fits 2 c l = true /\ fits 2 c (rotate l) = false.
Proof.
  split.
  - unfold fits, endToEnd, sideBySide, rotate. simpl.
    rewrite Z.mul_1_r.
    destruct (Listing.length listing >=? 10), (Listing.width listing >=? carLength),
      (Listing.length listing >=? carLength), (Listing.width listing >=? 10);
      reflexivity.
  - exists 10, (Listing.mk "a" "L1" 10 20 300). split; reflexivity.
Qed.

(* ------------------------------------------------------------------ *)
(** ** The orderings that the group search visits *)

Lemma sum_Permutation l1 l2 : Permutation l1 l2 -> sum l1 = sum l2.
Proof. unfold sum. induction 1; simpl; lia. Qed.

(** A sorted list is determined by its elements when the order cannot tie
    two different elements of it. *)
Lemma sorted_Permutation_unique {A : Type} (R : A -> A -> Prop) (l1 l2 : list A) :
  (forall x y, In x l1 -> In y l1 -> R x y -> R y x -> x = y) ->
  StronglySorted R l1 -> StronglySorted R l2 -> Permutation l1 l2 -> l1 = l2.
Proof.
  revert l2. induction l1 as [|a l1 IH]; intros l2 Hanti H1 H2 Hp.
  - apply Permutation_nil in Hp. congruence.
  - destruct l2 as [|b l2].
    + apply Permutation_sym, Permutation_nil in Hp. discriminate.
    + inversion H1 as [|? ? Hs1 Ha]; subst. inversion H2 as [|? ? Hs2 Hb]; subst.
      rewrite Forall_forall in Ha, Hb.
      assert (a = b) as ->.
      { assert (In a (b :: l2)) as Hin
          by (eapply Permutation_in; [exact Hp|left; reflexivity]).
        assert (In b (a :: l1)) as Hin'
          by (eapply Permutation_in; [symmetry; exact Hp|left; reflexivity]).
        destruct Hin as [->|Hin]; [reflexivity|].
        destruct Hin' as [->|Hin']; [reflexivity|].
        apply Hanti; simpl; auto. }
      f_equal. apply IH; try assumption.
      * intros x y Hx Hy. apply Hanti; right; assumption.
      * eapply Permutation_cons_inv. exact Hp.
Qed.

Lemma ordering_of_partition_composition numCars o :
  is_ordering_of_partition numCars o <-> is_composition numCars o.
Proof.
  unfold is_ordering_of_partition, is_composition. split.
  - intros [k [part [Hp Hperm]]]. destruct k as [|k]; [contradiction|].
    apply in_find_partitions in Hp. destruct Hp as [H1 [H2 H3]].
    apply nondecreasing_from_sorted in H2. destruct H2 as [H2 _].
    split; [|split].
    + intros ->. apply Permutation_sym, Permutation_nil in Hperm. subst. discriminate.
    + eapply Permutation_Forall; eassumption.
    + rewrite <- (sum_Permutation _ _ Hperm). exact H3.
  - intros [Hne [Hpos Hsum]].
    destruct (List.length o) as [|k] eqn:Hlen; [destruct o; [congruence|discriminate]|].
    exists (S k), (sort_ascending (fun x => x) o).
    assert (Permutation (sort_ascending (fun x => x) o) o) as Hperm
      by apply stable_sort_Permutation.
    split; [|exact Hperm]. apply in_find_partitions. split; [|split].
    + rewrite (Permutation_length Hperm). exact Hlen.
    + apply nondecreasing_from_sorted. split.
      * eapply Permutation_Forall; [symmetry; exact Hperm|exact Hpos].
      * apply (sort_ascending_sorted (fun x : Z => x)).
    + rewrite (sum_Permutation _ _ Hperm). exact Hsum.
Qed.

Lemma sorted_partition_unique total k1 k2 p1 p2 :
  In p1 (find_partitions total k1 1) -> In p2 (find_partitions total k2 1) ->
  Permutation p1 p2 -> p1 = p2.
Proof.
  intros H1 H2 Hp. destruct k1 as [|k1]; [contradiction|].
  destruct k2 as [|k2]; [contradiction|].
  apply in_find_partitions in H1, H2.
  destruct H1 as [_ [H1 _]]. destruct H2 as [_ [H2 _]].
  apply nondecreasing_from_sorted in H1, H2.
  apply (sorted_Permutation_unique Z.le); try tauto.
  intros x y _ _. lia.
Qed.

Section Orderings.

Variable set_order : list (list Z) -> list (list Z).
Hypothesis set_order_distinct : iterates_distinct set_order.

Lemma in_orderings_partition numCars o :
  In o (orderings set_order numCars) <->
  exists num_groups partition,
    1 <= num_groups <= numCars /\
    In partition (find_partitions numCars (Z.to_nat num_groups) 1) /\
    Permutation partition o.
Proof.
  unfold orderings. rewrite in_flat_map. split.
  - intros [g [Hg H]]. apply in_flat_map in H. destruct H as [part [Hp Ho]].
    apply (proj1 (proj2 (set_order_distinct _) _)) in Ho. apply in_permutations in Ho.
    apply in_range in Hg. exists g, part. split; [lia|auto].
  - intros [g [part [Hg [Hp Ho]]]]. exists g. split; [apply in_range; lia|].
    apply in_flat_map. exists part. split; [exact Hp|].
    apply (proj2 (proj2 (set_order_distinct _) _)). apply in_permutations. exact Ho.
Qed.

Lemma NoDup_orderings numCars : NoDup (orderings set_order numCars).
Proof.
  unfold orderings. apply NoDup_flat_map.
  - apply NoDup_range.
  - intros g _. apply NoDup_flat_map.
    + apply NoDup_find_partitions.
    + intros part _. apply set_order_distinct.
    + intros p1 p2 o Hp1 Hp2 Ho1 Ho2.
      apply (proj1 (proj2 (set_order_distinct _) _)) in Ho1, Ho2.
      apply in_permutations in Ho1, Ho2.
      eapply sorted_partition_unique; [exact Hp1|exact Hp2|].
      rewrite Ho1. symmetry. exact Ho2.
  - intros g1 g2 o Hg1 Hg2 Ho1 Ho2. apply in_range in Hg1, Hg2.
    apply in_flat_map in Ho1, Ho2.
    destruct Ho1 as [p1 [Hp1 Ho1]]. destruct Ho2 as [p2 [Hp2 Ho2]].
    apply (proj1 (proj2 (set_order_distinct _) _)) in Ho1, Ho2.
    apply in_permutations in Ho1, Ho2.
    apply Permutation_length in Ho1, Ho2.
    destruct (Z.to_nat g1) as [|k1] eqn:E1; [contradiction|].
    destruct (Z.to_nat g2) as [|k2] eqn:E2; [contradiction|].
    apply in_find_partitions in Hp1, Hp2.
    destruct Hp1 as [L1 _]. destruct Hp2 as [L2 _]. lia.
Qed.

Lemma in_orderings_composition numCars o :
  In o (orderings set_order numCars) <-> is_composition numCars o.
Proof.
  rewrite <- ordering_of_partition_composition.
  unfold is_ordering_of_partition. rewrite in_orderings_partition. split.
  - intros [g [part [_ [Hp Ho]]]]. eauto.
  - intros [k [part [Hp Ho]]]. destruct k as [|k]; [contradiction|].
    pose proof Hp as Hp'. apply in_find_partitions in Hp'.
    destruct Hp' as [H1 [H2 H3]]. apply nondecreasing_from_sum in H2.
    rewrite H1 in H2. exists (Z.of_nat (S k)), part.
    rewrite Nat2Z.id. split; [lia|auto].
Qed.

(** X3: the three loops of the group search visit exactly the compositions
    of numCars (the non-empty sequences of positive sub-group sizes that add
    up to numCars), each of them once. *)
Theorem orderings_are_compositions (numCars : Z) :
  NoDup (orderings set_order numCars) /\
  forall o, In o (orderings set_order numCars) <-> is_composition numCars o.
Proof.
  split; [apply NoDup_orderings|]. intros o. apply in_orderings_composition.
Qed.

End Orderings.

(* ------------------------------------------------------------------ *)
(** ** Group search from any bound *)

Lemma beats_lt p q b : p < q -> beats q b = true -> beats p b = true.
Proof.
  destruct b as [c|]; simpl; [|reflexivity].
  rewrite !Z.ltb_lt. lia.
Qed.

Lemma try_ordering_bounded carLength pool price_to_beat explored state o :
  nonnegative_prices pool ->
  bounded_invariant carLength pool price_to_beat explored state ->
  bounded_invariant carLength pool price_to_beat (explored ++ [o])
    (try_ordering carLength pool state o).
Proof.
  intros Hn Hinv. destruct state as [cheapest best].
  unfold try_ordering. cbn [fst snd].
  pose proof (place_groups_spec carLength cheapest o pool [] 0 Hn) as Hp.
  destruct (place_groups carLength cheapest o pool [] 0) as [[used p]|].
  - destruct Hp as [u [G [-> ->]]]. cbn [app]. rewrite Z.add_0_l.
    destruct (beats (sum_prices u) cheapest) eqn:B.
    + assert (forall o' u', In o' explored -> greedy carLength o' pool = Some u' ->
                sum_prices u < sum_prices u') as Hstrict.
      { intros o' u' Ho' G'. unfold bounded_invariant in Hinv. cbn [fst snd] in Hinv.
        destruct best as [a|].
        - destruct Hinv as [-> [_ [_ [_ [_ Hmin]]]]]. simpl in B. apply Z.ltb_lt in B.
          specialize (Hmin o' u' Ho' G'). lia.
        - destruct Hinv as [-> Hno]. specialize (Hno o' u' Ho' G').
          destruct price_to_beat as [b|]; simpl in *; [|discriminate].
          apply Z.ltb_lt in B. apply Z.ltb_ge in Hno. lia. }
      assert (beats (sum_prices u) price_to_beat = true) as Hb.
      { unfold bounded_invariant in Hinv. cbn [fst snd] in Hinv. destruct best as [a|].
        - destruct Hinv as [-> [Hb _]]. simpl in B. apply Z.ltb_lt in B.
          eapply beats_lt; eassumption.
        - destruct Hinv as [-> _]. exact B. }
      unfold bounded_invariant. cbn [fst snd Arrangement.total_price_in_cents
        Arrangement.split_of_cars Arrangement.listings_used].
      split; [reflexivity|]. split; [exact Hb|]. split; [exact G|].
      split; [reflexivity|]. split.
      * exists explored, []. split; [reflexivity|exact Hstrict].
      * intros o' u' Ho' G'. apply in_app_or in Ho'. destruct Ho' as [Ho'|[<-|[]]].
        -- specialize (Hstrict o' u' Ho' G'). lia.
        -- rewrite G in G'. injection G' as <-. lia.
    + unfold bounded_invariant in *. cbn [fst snd] in *. destruct best as [a|].
      * destruct Hinv as [-> [Hb [Hg [Ht [[earlier [later [-> Hearlier]]] Hmin]]]]].
        split; [reflexivity|]. split; [exact Hb|]. split; [exact Hg|].
        split; [exact Ht|]. split.
        -- exists earlier, (later ++ [o]).
           split; [rewrite <- app_assoc; reflexivity|exact Hearlier].
        -- intros o' u' Ho' G'. apply in_app_or in Ho'.
           destruct Ho' as [Ho'|[<-|[]]]; [eauto|].
           rewrite G in G'. injection G' as <-. simpl in B. apply Z.ltb_ge in B. exact B.
      * destruct Hinv as [-> Hno]. split; [reflexivity|]. intros o' u' Ho' G'.
        apply in_app_or in Ho'. destruct Ho' as [Ho'|[<-|[]]]; [eauto|].
        rewrite G in G'. injection G' as <-. exact B.
  - unfold bounded_invariant in *. cbn [fst snd] in *. destruct best as [a|].
    + destruct Hinv as [-> [Hb [Hg [Ht [[earlier [later [-> Hearlier]]] Hmin]]]]].
      split; [reflexivity|]. split; [exact Hb|]. split; [exact Hg|].
      split; [exact Ht|]. split.
      * exists earlier, (later ++ [o]).
        split; [rewrite <- app_assoc; reflexivity|exact Hearlier].
      * intros o' u' Ho' G'. apply in_app_or in Ho'.
        destruct Ho' as [Ho'|[<-|[]]]; [eauto|].
        destruct Hp as [G|[u [c [G [[= <-] Hc]]]]]; rewrite G in G'; [discriminate|].
        injection G' as <-. lia.
    + destruct Hinv as [-> Hno]. split; [reflexivity|]. intros o' u' Ho' G'.
      apply in_app_or in Ho'. destruct Ho' as [Ho'|[<-|[]]]; [eauto|].
      destruct Hp as [G|[u [c [G [-> Hc]]]]]; rewrite G in G'; [discriminate|].
      injection G' as <-. simpl. apply Z.ltb_ge. lia.
Qed.

Lemma fold_try_ordering_bounded carLength pool price_to_beat os :
  nonnegative_prices pool ->
  forall explored state,
  bounded_invariant carLength pool price_to_beat explored state ->
  bounded_invariant carLength pool price_to_beat (explored ++ os)
    (fold_left (try_ordering carLength pool) os state).
Proof.
  intros Hn. induction os as [|o os IH]; intros explored state Hinv; simpl.
  - rewrite app_nil_r. exact Hinv.
  - replace (explored ++ o :: os) with ((explored ++ [o]) ++ os)
      by (rewrite <- app_assoc; reflexivity).
    apply IH. apply try_ordering_bounded; assumption.
Qed.

Lemma bounded_search set_order numCars carLength pool price_to_beat :
  nonnegative_prices pool ->
  bounded_invariant carLength pool price_to_beat (orderings set_order numCars)
    (fold_left (try_ordering carLength pool) (orderings set_order numCars)
               (price_to_beat, None)).
Proof.
  intros Hn.
  apply (fold_try_ordering_bounded carLength pool price_to_beat
           (orderings set_order numCars) Hn [] (price_to_beat, None)).
  split; [reflexivity|]. intros o used [].
Qed.

(** The search result read through the invariant. *)
Lemma bounded_search_some set_order numCars carLength pool price_to_beat a :
  nonnegative_prices pool ->
  find_cheapest_for_location set_order numCars carLength pool price_to_beat = Some a ->
  beats (Arrangement.total_price_in_cents a) price_to_beat = true /\
  greedy carLength (Arrangement.split_of_cars a) pool
    = Some (Arrangement.listings_used a) /\
  Arrangement.total_price_in_cents a = sum_prices (Arrangement.listings_used a) /\
  (exists earlier later,
     orderings set_order numCars = earlier ++ Arrangement.split_of_cars a :: later /\
     forall o used, In o earlier -> greedy carLength o pool = Some used ->
       Arrangement.total_price_in_cents a < sum_prices used) /\
  forall o used, In o (orderings set_order numCars) ->
    greedy carLength o pool = Some used ->
    Arrangement.total_price_in_cents a <= sum_prices used.
Proof.
  intros Hn E. pose proof (bounded_search set_order numCars carLength pool price_to_beat Hn)
    as Hinv.
  unfold find_cheapest_for_location in E. unfold bounded_invariant in Hinv.
  rewrite E in Hinv. tauto.
Qed.

Lemma bounded_search_none set_order numCars carLength pool price_to_beat :
  nonnegative_prices pool ->
  find_cheapest_for_location set_order numCars carLength pool price_to_beat = None ->
  forall o used, In o (orderings set_order numCars) ->
    greedy carLength o pool = Some used ->
    beats (sum_prices used) price_to_beat = false.
Proof.
  intros Hn E. pose proof (bounded_search set_order numCars carLength pool price_to_beat Hn)
    as Hinv.
  unfold find_cheapest_for_location in E. unfold bounded_invariant in Hinv.
  rewrite E in Hinv. tauto.
Qed.

(** X4: started from a finite price to beat, with non-negative prices, the
    group search returns only an arrangement strictly cheaper than that
    price and no dearer than the greedy service of any composition of
    numCars; it returns nothing exactly when no composition is served for
    less than the price to beat. *)
Theorem price_to_beat_contract (set_order : list (list Z) -> list (list Z))
    (numCars carLength : Z) (pool : list Listing.t) (price_to_beat : Z) :
  iterates_distinct set_order -> nonnegative_prices pool ->
  (forall a,
     find_cheapest_for_location set_order numCars carLength pool (Fin price_to_beat)
       = Some a ->
     Arrangement.total_price_in_cents a < price_to_beat /\
     forall o used, is_composition numCars o -> greedy carLength o pool = Some used ->
       Arrangement.total_price_in_cents a <= sum_prices used) /\
  (find_cheapest_for_location set_order numCars carLength pool (Fin price_to_beat) = None
   <->
   forall o used, is_composition numCars o -> greedy carLength o pool = Some used ->
     price_to_beat <= sum_prices used).
Proof.
  intros Hd Hn. split.
  - intros a E. apply bounded_search_some in E; [|exact Hn].
    destruct E as [Hb [_ [_ [_ Hmin]]]]. simpl in Hb. apply Z.ltb_lt in Hb.
    split; [exact Hb|]. intros o used Ho. apply Hmin.
    apply (in_orderings_composition set_order Hd numCars). exact Ho.
  - split.
    + intros E o used Ho G.
      pose proof (bounded_search_none _ _ _ _ _ Hn E o used) as Hb.
      simpl in Hb. apply Z.ltb_ge. apply Hb; [|exact G].
      apply (in_orderings_composition set_order Hd numCars). exact Ho.
    + intros Hall.
      destruct (find_cheapest_for_location set_order numCars carLength pool
                  (Fin price_to_beat)) as [a|] eqn:E; [|reflexivity].
      apply bounded_search_some in E; [|exact Hn].
      destruct E as [Hb [Hg [Ht [[earlier [later [Hsplit _]]] _]]]].
      simpl in Hb. apply Z.ltb_lt in Hb.
      assert (is_composition numCars (Arrangement.split_of_cars a)) as Hc.
      { apply (in_orderings_composition set_order Hd numCars).
        rewrite Hsplit. apply in_or_app. right. left. reflexivity. }
      specialize (Hall _ _ Hc Hg). lia.
Qed.

(** X5: with non-negative prices, the arrangement that the group search
    returns is the first cheapest one in visiting order: every feasible
    ordering visited before its own is strictly dearer, and every feasible
    ordering visited after it is at least as dear. *)
Theorem first_cheapest_wins (set_order : list (list Z) -> list (list Z))
    (numCars carLength : Z) (pool : list Listing.t) (price_to_beat : bound)
    (a : Arrangement.t) :
  nonnegative_prices pool ->
  find_cheapest_for_location set_order numCars carLength pool price_to_beat = Some a ->
  exists earlier later,
    orderings set_order numCars = earlier ++ Arrangement.split_of_cars a :: later /\
    (forall o used, In o earlier -> greedy carLength o pool = Some used ->
       Arrangement.total_price_in_cents a < sum_prices used) /\
    (forall o used, In o later -> greedy carLength o pool = Some used ->
       Arrangement.total_price_in_cents a <= sum_prices used).
Proof.
  intros Hn E. apply bounded_search_some in E; [|exact Hn].
  destruct E as [_ [_ [_ [[earlier [later [Hsplit Hearlier]]] Hmin]]]].
  exists earlier, later. split; [exact Hsplit|]. split; [exact Hearlier|].
  intros o used Ho. apply Hmin. rewrite Hsplit.
  apply in_or_app. right. right. exact Ho.
Qed.

(** X6: with non-negative prices, the price that the group search finds
    does not depend on the order in which the set of permutations is
    iterated: two iteration orders give both nothing or the same total. *)
Theorem price_independent_of_set_order
    (set_order1 set_order2 : list (list Z) -> list (list Z))
    (numCars carLength : Z) (pool : list Listing.t) (price_to_beat : bound) :
  iterates_distinct set_order1 -> iterates_distinct set_order2 ->
  nonnegative_prices pool ->
  option_map Arrangement.total_price_in_cents
    (find_cheapest_for_location set_order1 numCars carLength pool price_to_beat) =
  option_map Arrangement.total_price_in_cents
    (find_cheapest_for_location set_order2 numCars carLength pool price_to_beat).
Proof.
  intros Hd1 Hd2 Hn.
  assert (forall so so', iterates_distinct so -> iterates_distinct so' ->
          forall a, find_cheapest_for_location so numCars carLength pool price_to_beat
                      = Some a ->
          In (Arrangement.split_of_cars a) (orderings so' numCars) /\
          greedy carLength (Arrangement.split_of_cars a) pool
            = Some (Arrangement.listings_used a) /\
          Arrangement.total_price_in_cents a = sum_prices (Arrangement.listings_used a) /\
          beats (Arrangement.total_price_in_cents a) price_to_beat = true) as Hmove.
  { intros so so' Hso Hso' a E. apply bounded_search_some in E; [|exact Hn].
    destruct E as [Hb [Hg [Ht [[earlier [later [Hsplit _]]] _]]]].
    split; [|auto]. apply (in_orderings_composition so' Hso').
    apply (in_orderings_composition so Hso). rewrite Hsplit.
    apply in_or_app. right. left. reflexivity. }
  destruct (find_cheapest_for_location set_order1 numCars carLength pool price_to_beat)
    as [a1|] eqn:E1;
  destruct (find_cheapest_for_location set_order2 numCars carLength pool price_to_beat)
    as [a2|] eqn:E2; simpl.
  - destruct (Hmove _ _ Hd1 Hd2 a1 E1) as [Hin1 [Hg1 [Ht1 _]]].
    destruct (Hmove _ _ Hd2 Hd1 a2 E2) as [Hin2 [Hg2 [Ht2 _]]].
    apply bounded_search_some in E1, E2; try exact Hn.
    destruct E1 as [_ [_ [_ [_ Hmin1]]]]. destruct E2 as [_ [_ [_ [_ Hmin2]]]].
    specialize (Hmin1 _ _ Hin2 Hg2). specialize (Hmin2 _ _ Hin1 Hg1).
    f_equal. lia.
  - destruct (Hmove _ _ Hd1 Hd2 a1 E1) as [Hin1 [Hg1 [Ht1 Hb1]]].
    rewrite Ht1 in Hb1.
    rewrite (bounded_search_none _ _ _ _ _ Hn E2 _ _ Hin1 Hg1) in Hb1.
    discriminate.
  - destruct (Hmove _ _ Hd2 Hd1 a2 E2) as [Hin2 [Hg2 [Ht2 Hb2]]].
    rewrite Ht2 in Hb2.
    rewrite (bounded_search_none _ _ _ _ _ Hn E1 _ _ Hin2 Hg2) in Hb2.
    discriminate.
  - reflexivity.
Qed.

(* ------------------------------------------------------------------ *)
(** ** Group search whatever the prices *)

Lemma fold_try_ordering_member carLength pool os :
  forall state a,
  snd (fold_left (try_ordering carLength pool) os state) = Some a ->
  snd state = Some a \/ In (Arrangement.split_of_cars a) os.
Proof.
  induction os as [|o os IH]; intros state a H; simpl in H; [left; exact H|].
  apply IH in H. destruct H as [H|H]; [|right; right; exact H].
  unfold try_ordering in H.
  destruct (place_groups carLength (fst state) o pool [] 0) as [[used p]|];
    [|left; exact H].
  destruct (beats p (fst state)); [|left; exact H].
  simpl in H. injection H as <-. right. left. reflexivity.
Qed.

Lemma fold_try_ordering_keeps carLength pool os :
  forall state b, snd state = Some b ->
  exists a, snd (fold_left (try_ordering carLength pool) os state) = Some a.
Proof.
  induction os as [|o os IH]; intros state b H; simpl; [eauto|].
  unfold try_ordering at 2.
  destruct (place_groups carLength (fst state) o pool [] 0) as [[used p]|];
    [|eapply IH; exact H].
  destruct (beats p (fst state)); [|eapply IH; exact H].
  eapply IH. reflexivity.
Qed.

Lemma place_groups_unbounded carLength ordering :
  forall pool used0 p0,
  place_groups carLength Inf ordering pool used0 p0 = None ->
  greedy carLength ordering pool = None.
Proof.
  induction ordering as [|g rest IH]; intros pool used0 p0; simpl; [discriminate|].
  destruct (find_cheapest_spot_optimized g carLength pool) as [spot|]; [|reflexivity].
  intros H. apply IH in H. rewrite H. reflexivity.
Qed.

Lemma fold_try_ordering_none carLength pool os :
  forall state, fst state = Inf ->
  snd (fold_left (try_ordering carLength pool) os state) = None ->
  forall o, In o os -> greedy carLength o pool = None.
Proof.
  induction os as [|o os IH]; intros state Hinf H o' Ho'; [destruct Ho'|].
  simpl in H. unfold try_ordering at 2 in H. rewrite Hinf in H.
  destruct (place_groups carLength Inf o pool [] 0) as [[used p]|] eqn:E.
  - simpl in H.
    destruct (fold_try_ordering_keeps carLength pool os
                (Fin p, Some (Arrangement.mk o used p)) _ eq_refl) as [a Ha].
    rewrite Ha in H. discriminate.
  - destruct Ho' as [<-|Ho'].
    + eapply place_groups_unbounded. exact E.
    + eapply IH; eassumption.
Qed.

Lemma greedy_fits carLength ordering :
  forall pool used, greedy carLength ordering pool = Some used ->
  Forall2 (fun g l => fits g carLength l = true) ordering used.
Proof.
  induction ordering as [|g rest IH]; intros pool used; simpl.
  - intros [= <-]. constructor.
  - destruct (find_cheapest_spot_optimized g carLength pool) as [spot|] eqn:E;
      [|discriminate].
    destruct (greedy carLength rest (remove_first spot pool)) as [u|] eqn:G;
      [|discriminate].
    intros [= <-]. constructor; [|eapply IH; exact G].
    apply find_cheapest_spot_some in E. tauto.
Qed.

Lemma find_cheapest_for_location_member set_order numCars carLength pool price_to_beat a :
  find_cheapest_for_location set_order numCars carLength pool price_to_beat = Some a ->
  In (Arrangement.split_of_cars a) (orderings set_order numCars).
Proof.
  intros E. apply fold_try_ordering_member in E. destruct E as [E|E]; [discriminate|exact E].
Qed.

Lemma unbounded_search_none set_order numCars carLength pool :
  find_cheapest_for_location set_order numCars carLength pool Inf = None <->
  forall o, In o (orderings set_order numCars) -> greedy carLength o pool = None.
Proof.
  split.
  - intros E. eapply fold_try_ordering_none; [|exact E]. reflexivity.
  - intros Hall.
    destruct (find_cheapest_for_location set_order numCars carLength pool Inf)
      as [a|] eqn:E; [|reflexivity].
    pose proof (find_cheapest_for_location_member _ _ _ _ _ _ E) as Hin.
    apply find_cheapest_for_location_greedy in E. destruct E as [Hg _].
    rewrite (Hall _ Hin) in Hg. discriminate.
Qed.

(** X7: whatever the prices and the price to beat, an arrangement returned
    by the group search splits numCars into positive sub-groups, pairs every
    sub-group with a listing compatible with it, takes its listings out of
    the pool without taking one more often than the pool holds it, and
    carries the sum of their prices as its total. *)
Theorem arrangement_well_formed (set_order : list (list Z) -> list (list Z))
    (numCars carLength : Z) (pool : list Listing.t) (price_to_beat : bound)
    (a : Arrangement.t) :
  iterates_distinct set_order ->
  find_cheapest_for_location set_order numCars carLength pool price_to_beat = Some a ->
  is_composition numCars (Arrangement.split_of_cars a) /\
  Forall2 (fun g l => fits g carLength l = true)
          (Arrangement.split_of_cars a) (Arrangement.listings_used a) /\
  (exists remaining, Permutation pool (Arrangement.listings_used a ++ remaining)) /\
  Arrangement.total_price_in_cents a = sum_prices (Arrangement.listings_used a).
Proof.
  intros Hd E.
  pose proof (find_cheapest_for_location_member _ _ _ _ _ _ E) as Hin.
  apply find_cheapest_for_location_greedy in E. destruct E as [Hg Ht].
  split; [apply (in_orderings_composition set_order Hd); exact Hin|].
  split; [eapply greedy_fits; exact Hg|]. split; [|exact Ht].
  destruct (greedy_split _ _ _ _ Hg) as [remaining [Hp _]]. eauto.
Qed.


Lemma filter_remove_first_length (f : Listing.t -> bool) spot pool :
  In spot pool -> f spot = true ->
  S (List.length (filter f (remove_first spot pool))) = List.length (filter f pool).
Proof.
  intros Hin Hf. induction pool as [|l pool IH]; [destruct Hin|]. simpl.
  destruct (Listing.eqb l spot) eqn:E.
  - apply Listing_eqb_eq in E. subst. rewrite Hf. reflexivity.
  - destruct Hin as [->|Hin]; [rewrite Listing_eqb_refl in E; discriminate|].
    simpl. destruct (f l); simpl; rewrite <- (IH Hin); reflexivity.
Qed.

Lemma greedy_singles carLength n :
  forall pool,
  (n <= List.length (filter (fits 1 carLength) pool))%nat ->
  exists used, greedy carLength (repeat 1 n) pool = Some used.
Proof.
  induction n as [|n IH]; intros pool Hlen; simpl; [eauto|].
  destruct (find_cheapest_spot_optimized 1 carLength pool) as [spot|] eqn:E.
  - apply find_cheapest_spot_some in E. destruct E as [Hin Hf].
    destruct (IH (remove_first spot pool)) as [used Hu].
    + pose proof (filter_remove_first_length (fits 1 carLength) spot pool Hin Hf).
      lia.
    + rewrite Hu. eauto.
  - rewrite find_cheapest_spot_none in E.
    destruct (filter (fits 1 carLength) pool) as [|l rest] eqn:F; [simpl in Hlen; lia|].
    assert (In l (filter (fits 1 carLength) pool)) as Hl by (rewrite F; left; reflexivity).
    apply filter_In in Hl. destruct Hl as [Hl Hf]. rewrite (E l Hl) in Hf. discriminate.
Qed.

Lemma repeat_one_composition numCars :
  1 <= numCars -> is_composition numCars (repeat 1 (Z.to_nat numCars)).
Proof.
  intros H. unfold is_composition. split; [|split].
  - destruct (Z.to_nat numCars) eqn:E; [lia|discriminate].
  - apply Forall_forall. intros x Hx. apply repeat_spec in Hx. lia.
  - rewrite <- (Z2Nat.id numCars) at 2 by lia.
    induction (Z.to_nat numCars) as [|n IH]; [reflexivity|].
    unfold sum in *. cbn [repeat fold_right]. rewrite IH. lia.
Qed.

(** X9: for numCars >= 1 and a non-negative vehicle length, the group search
    without a price to beat finds an arrangement as soon as the pool holds
    numCars listings that each take one vehicle, and it finds one only if
    the pool holds a listing that takes one vehicle. *)
Theorem single_vehicle_listings (set_order : list (list Z) -> list (list Z))
    (numCars carLength : Z) (pool : list Listing.t) :
  iterates_distinct set_order -> 1 <= numCars -> 0 <= carLength ->
  ((Z.to_nat numCars <= List.length (filter (fits 1 carLength) pool))%nat ->
   exists a, find_cheapest_for_location set_order numCars carLength pool Inf = Some a) /\
  ((exists a, find_cheapest_for_location set_order numCars carLength pool Inf = Some a) ->
   exists l, In l pool /\ fits 1 carLength l = true).
Proof.
  intros Hd Hn Hc. split.
  - intros Hlen.
    destruct (find_cheapest_for_location set_order numCars carLength pool Inf)
      as [a|] eqn:E; [eauto|].
    rewrite unbounded_search_none in E.
    destruct (greedy_singles carLength _ pool Hlen) as [used Hu].
    rewrite E in Hu; [discriminate|].
    apply (in_orderings_composition set_order Hd). apply repeat_one_composition. exact Hn.
  - intros [a E].
    pose proof (find_cheapest_for_location_member _ _ _ _ _ _ E) as Hin.
    apply (in_orderings_composition set_order Hd) in Hin.
    destruct Hin as [Hne [Hpos _]].
    apply find_cheapest_for_location_greedy in E. destruct E as [Hg _].
    pose proof (greedy_incl _ _ _ _ Hg) as Hincl.
    apply greedy_fits in Hg.
    destruct Hg as [|g l gs ls Hf _]; [congruence|].
    exists l. split; [apply Hincl; left; reflexivity|].
    inversion Hpos; subst. eapply fits_group_monotone; [exact Hc| |exact Hf]. assumption.
Qed.

(* ------------------------------------------------------------------ *)
(** ** Pools stay price-ascending *)

Lemma remove_first_price_ascending spot pool :
  price_ascending pool -> price_ascending (remove_first spot pool).
Proof.
  unfold price_ascending. induction 1 as [|l pool Hs IH Hl]; simpl; [constructor|].
  destruct (Listing.eqb l spot); [exact Hs|].
  constructor; [exact IH|]. rewrite Forall_forall in *.
  intros x Hx. apply Hl. eapply remove_first_In. exact Hx.
Qed.




(* ------------------------------------------------------------------ *)
(** ** The dictionary of locations in closed form *)

Lemma append_at_In_NoDup k v d k' vs' :
  NoDup (map fst d) ->
  In (k', vs') (append_at k v d) ->
  (k' <> k /\ In (k', vs') d) \/
  (k' = k /\ ((exists vs, In (k, vs) d /\ vs' = vs ++ [v]) \/
              (~ In k (map fst d) /\ vs' = [v]))).
Proof.
  induction d as [|[k0 vs0] d IH]; simpl; intros Hn.
  - intros [[= <- <-]|[]]. right. split; [reflexivity|]. right. auto.
  - inversion Hn as [|? ? Hk0 Hd]; subst.
    destruct (String.eqb_spec k0 k) as [-> | Hne]; simpl.
    + intros [[= <- <-]|H].
      * right. split; [reflexivity|]. left. eauto.
      * left. split; [|auto]. intros ->. apply Hk0.
        apply in_map_iff. exists (k, vs'). auto.
    + intros [[= <- <-]|H]; [left; auto|].
      destruct (IH Hd H) as [[H1 H2]|[-> [[vs [H1 H2]]|[H1 H2]]]].
      * left. auto.
      * right. split; [reflexivity|]. left. eauto.
      * right. split; [reflexivity|]. right. split; [|exact H2].
        intros [E|E]; [congruence|auto].
Qed.

Lemma collect_by_location_keys listings :
  map fst (collect_by_location listings) =
  first_occurrences (map Listing.location_id listings).
Proof.
  unfold collect_by_location. rewrite fold_append_at_keys. simpl.
  induction (first_occurrences (map Listing.location_id listings)) as [|k l IH];
    simpl; congruence.
Qed.

Lemma listings_at_snoc k listings x :
  listings_at k (listings ++ [x]) =
  listings_at k listings ++
  (if String.eqb (Listing.location_id x) k then [x] else []).
Proof. unfold listings_at. rewrite filter_app. reflexivity. Qed.

Lemma listings_at_nil k listings :
  ~ In k (map Listing.location_id listings) -> listings_at k listings = [].
Proof.
  intros H. unfold listings_at. induction listings as [|l listings IH]; [reflexivity|].
  simpl in *. destruct (String.eqb_spec (Listing.location_id l) k) as [E | E].
  - exfalso. auto.
  - apply IH. auto.
Qed.

Lemma collect_by_location_exact listings k vs :
  In (k, vs) (collect_by_location listings) -> vs = listings_at k listings.
Proof.
  revert k vs. induction listings as [|x listings IH] using rev_ind; intros k vs.
  - intros [].
  - rewrite collect_by_location_snoc. intros H.
    apply append_at_In_NoDup in H.
    2:{ rewrite collect_by_location_keys. apply first_occurrences_NoDup. }
    rewrite listings_at_snoc.
    destruct H as [[Hne H]|[-> [[vs0 [H ->]]|[Hnew ->]]]].
    + destruct (String.eqb_spec (Listing.location_id x) k) as [E | E]; [congruence|].
      rewrite app_nil_r. apply IH. exact H.
    + rewrite String.eqb_refl. f_equal. apply IH. exact H.
    + rewrite String.eqb_refl. rewrite listings_at_nil; [reflexivity|].
      rewrite collect_by_location_keys, first_occurrences_In in Hnew. exact Hnew.
Qed.

Lemma map_fst_rebuild {A B : Type} (G : A -> B) (d : list (A * B)) :
  (forall k v, In (k, v) d -> v = G k) ->
  d = map (fun k => (k, G k)) (map fst d).
Proof.
  induction d as [|[k v] d IH]; intros H; simpl; [reflexivity|].
  rewrite <- IH by (intros k' v' Hin; apply H; right; exact Hin).
  rewrite <- (H k v) by (left; reflexivity). reflexivity.
Qed.

Lemma group_listings_by_location_exact all_listings :
  group_listings_by_location all_listings =
  map (fun k => (k, sort_ascending Listing.price_in_cents (listings_at k all_listings)))
      (first_occurrences (map Listing.location_id all_listings)).
Proof.
  rewrite group_listings_by_location_unfold.
  rewrite (map_fst_rebuild (fun k => listings_at k all_listings)
             (collect_by_location all_listings)) at 1
    by (intros k v; apply collect_by_location_exact).
  rewrite collect_by_location_keys, map_map. reflexivity.
Qed.

(** X12: grouping yields, for the location ids of the catalog in the order
    of their first occurrence, exactly the catalog's listings of that
    location, in catalog order stably sorted by ascending price; no listing
    is lost, duplicated or moved to another location. *)
Theorem grouping_closed_form (all_listings : list Listing.t) :
  group_listings_by_location all_listings =
  map (fun k => (k, sort_ascending Listing.price_in_cents (listings_at k all_listings)))
      (first_occurrences (map Listing.location_id all_listings)).
Proof. apply group_listings_by_location_exact. Qed.

(* ------------------------------------------------------------------ *)
(** ** What the answer holds, location by location *)

Lemma in_answer_exact set_order vehicle_request all_listings r :
  In r (find_best_solution_with_grouping set_order vehicle_request all_listings) <->
  In (Result.location_id r) (map Listing.location_id all_listings) /\
  solve_location set_order vehicle_request
    (Result.location_id r,
     sort_ascending Listing.price_in_cents
       (listings_at (Result.location_id r) all_listings)) = Some r.
Proof.
  rewrite in_find_best_solution, group_listings_by_location_exact. split.
  - intros [location [Hin Hs]]. apply in_map_iff in Hin. destruct Hin as [k [<- Hk]].
    destruct (solve_location_placed _ _ _ _ Hs) as [used [_ [Hl _]]].
    simpl in Hl. rewrite Hl. split; [apply first_occurrences_In; exact Hk|exact Hs].
  - intros [Hk Hs]. eexists. split; [|exact Hs].
    apply in_map_iff. exists (Result.location_id r). split; [reflexivity|].
    apply first_occurrences_In. exact Hk.
Qed.

Lemma in_locations_listings_at k all_listings :
  In k (map Listing.location_id all_listings) <-> listings_at k all_listings <> [].
Proof.
  split.
  - intros H E. apply in_map_iff in H. destruct H as [l [Hl Hin]].
    assert (In l (listings_at k all_listings)) as Hin'.
    { apply filter_In. split; [exact Hin|]. apply String.eqb_eq. exact Hl. }
    rewrite E in Hin'. destruct Hin'.
  - intros H. destruct (in_dec string_dec k (map Listing.location_id all_listings))
      as [Hin|Hnot]; [exact Hin|].
    exfalso. apply H. apply listings_at_nil. exact Hnot.
Qed.

(** X13: the result of a location depends on the catalog only through the
    listings of that location: two catalogs that hold the same listings at a
    result's location, in the same order, either both yield that result or
    neither does, whatever they hold at other locations. *)
Theorem location_independence (set_order : list (list Z) -> list (list Z))
    (vehicle_request : list Vehicle.t) (catalog1 catalog2 : list Listing.t)
    (r : Result.t) :
  listings_at (Result.location_id r) catalog1 =
  listings_at (Result.location_id r) catalog2 ->
  (In r (find_best_solution_with_grouping set_order vehicle_request catalog1) <->
   In r (find_best_solution_with_grouping set_order vehicle_request catalog2)).
Proof.
  intros H. rewrite !in_answer_exact, !in_locations_listings_at, H. reflexivity.
Qed.

Lemma remove_used_Permutation used pool remaining :
  Permutation pool (used ++ remaining) ->
  Permutation (remove_used used pool) remaining.
Proof.
  revert pool. induction used as [|spot used IH]; intros pool Hp; [exact Hp|].
  rewrite remove_used_cons.
  assert (In spot pool) as Hin
    by (eapply Permutation_in; [symmetry; exact Hp|left; reflexivity]).
  rewrite (proj2 (contains_In pool spot) Hin). apply IH.
  eapply Permutation_cons_inv.
  rewrite <- (remove_first_Permutation _ _ Hin). exact Hp.
Qed.

Lemma all_groups_placed_split set_order sorted_request pool used price :
  all_groups_placed set_order sorted_request pool used price ->
  price = sum_prices used /\
  exists remaining, Permutation pool (used ++ remaining).
Proof.
  induction 1 as [pool|v rest pool a used price Ha Hp IH].
  - split; [reflexivity|]. exists pool. reflexivity.
  - apply find_cheapest_for_location_greedy in Ha. destruct Ha as [Hg Ht].
    destruct IH as [-> [remaining Hrem]].
    split; [rewrite sum_prices_app; lia|].
    destruct (greedy_split _ _ _ _ Hg) as [left_over [Hsplit _]].
    exists remaining. rewrite <- app_assoc, <- Hrem.
    rewrite (remove_used_Permutation _ _ _ Hsplit). exact Hsplit.
Qed.

(** X14: the listings behind a result are taken from the catalog's
    listings at the result's location without taking any listing more often
    than the catalog holds it there, also when ids repeat; the result's
    listing ids are their ids and its total price is the sum of their
    prices. *)
Theorem no_double_booking (set_order : list (list Z) -> list (list Z))
    (vehicle_request : list Vehicle.t) (all_listings : list Listing.t) (r : Result.t) :
  In r (find_best_solution_with_grouping set_order vehicle_request all_listings) ->
  exists used remaining,
    Result.listing_ids r = map Listing.id used /\
    Result.total_price_in_cents r = sum_prices used /\
    Permutation (listings_at (Result.location_id r) all_listings) (used ++ remaining).
Proof.
  intros H. apply in_answer_exact in H. destruct H as [_ H].
  apply solve_location_placed in H. destruct H as [used [Hp [_ Hids]]].
  apply all_groups_placed_split in Hp. destruct Hp as [Hprice [remaining Hperm]].
  exists used, remaining. split; [exact Hids|]. split; [exact Hprice|].
  rewrite <- Hperm. simpl. symmetry. apply stable_sort_Permutation.
Qed.

Lemma subsequence_NoDup {A : Type} (l1 l2 : list A) :
  subsequence l1 l2 -> NoDup l2 -> NoDup l1.
Proof.
  induction 1 as [|x l1 l2 H IH|x l1 l2 H IH]; intros Hn.
  - constructor.
  - inversion Hn; subst. constructor; [|auto].
    intros Hx. eapply subsequence_In in Hx; [|exact H]. contradiction.
  - inversion Hn; subst. auto.
Qed.

(** X15: no location occurs twice in the answer, and every location of the
    answer is the location of a listing of the catalog. *)
Theorem one_result_per_location (set_order : list (list Z) -> list (list Z))
    (vehicle_request : list Vehicle.t) (all_listings : list Listing.t) :
  NoDup (map Result.location_id
           (find_best_solution_with_grouping set_order vehicle_request all_listings)) /\
  forall r,
    In r (find_best_solution_with_grouping set_order vehicle_request all_listings) ->
    In (Result.location_id r) (map Listing.location_id all_listings).
Proof.
  split.
  - unfold find_best_solution_with_grouping.
    eapply Permutation_NoDup.
    + apply Permutation_map. symmetry. apply stable_sort_Permutation.
    + eapply subsequence_NoDup; [apply feasible_results_locations|].
      rewrite group_listings_by_location_keys. apply first_occurrences_NoDup.
  - intros r H. apply in_answer_exact in H. tauto.
Qed.


(* ------------------------------------------------------------------ *)
(** ** How many listings a result takes *)

Lemma composition_length numCars o :
  is_composition numCars o -> 1 <= Z.of_nat (List.length o) <= numCars.
Proof.
  intros [Hne [Hpos Hsum]]. split; [destruct o; [congruence|simpl; lia]|].
  rewrite <- Hsum. clear Hne Hsum.
  induction Hpos as [|x o Hx Hpos IH]; unfold sum in *; simpl List.length;
    cbn [fold_right]; lia.
Qed.

Lemma total_cars_Permutation req1 req2 :
  Permutation req1 req2 -> total_cars req1 = total_cars req2.
Proof. unfold total_cars. induction 1; simpl; lia. Qed.

Lemma all_groups_placed_count set_order sorted_request pool used price :
  iterates_distinct set_order ->
  all_groups_placed set_order sorted_request pool used price ->
  Z.of_nat (List.length sorted_request) <= Z.of_nat (List.length used)
    <= total_cars sorted_request.
Proof.
  intros Hd. induction 1 as [pool|v rest pool a used price Ha Hp IH].
  - simpl. unfold total_cars. simpl. lia.
  - pose proof (find_cheapest_for_location_member _ _ _ _ _ _ Ha) as Hin.
    apply (in_orderings_composition set_order Hd) in Hin.
    apply composition_length in Hin.
    apply find_cheapest_for_location_greedy in Ha. destruct Ha as [Hg _].
    apply greedy_split in Hg. destruct Hg as [_ [_ Hlen]].
    rewrite length_app, Hlen. unfold total_cars in *.
    cbn [fold_right List.length]. lia.
Qed.

(** X17: a result takes at least one listing for every vehicle group of the
    request and at most one listing for every vehicle. *)
Theorem listings_per_result (set_order : list (list Z) -> list (list Z))
    (vehicle_request : list Vehicle.t) (all_listings : list Listing.t) (r : Result.t) :
  iterates_distinct set_order ->
  In r (find_best_solution_with_grouping set_order vehicle_request all_listings) ->
  Z.of_nat (List.length vehicle_request)
    <= Z.of_nat (List.length (Result.listing_ids r))
    <= total_cars vehicle_request.
Proof.
  intros Hd H. apply find_best_solution_result in H.
  destruct H as [pool [used [_ [Hp Hids]]]].
  apply (all_groups_placed_count set_order _ _ _ _ Hd) in Hp.
  assert (Permutation (sort_descending demand vehicle_request) vehicle_request) as Hperm
    by apply stable_sort_Permutation.
  rewrite (Permutation_length Hperm), (total_cars_Permutation _ _ Hperm) in Hp.
  rewrite Hids, length_map. exact Hp.
Qed.

(* ------------------------------------------------------------------ *)
(** ** The order of the request *)

Lemma insert_descending_sorted {A : Type} (key : A -> Z) x l :
  StronglySorted (fun a b => key a >= key b) l ->
  StronglySorted (fun a b => key a >= key b)
    (insert_by (fun a b => key a >? key b) x l).
Proof.
  induction 1 as [|y l Hs IH Hy]; simpl.
  - repeat constructor.
  - rewrite Z.gtb_ltb. destruct (Z.ltb_spec (key x) (key y)) as [Hlt|Hge].
    + constructor; [exact IH|]. rewrite Forall_forall in *. intros z Hz.
      eapply Permutation_in in Hz; [|apply insert_by_Permutation].
      destruct Hz as [<-|Hz]; [lia|auto].
    + constructor; [constructor; assumption|].
      constructor; [lia|]. rewrite Forall_forall in *.
      intros z Hz. specialize (Hy z Hz). simpl in *. lia.
Qed.

Lemma sort_descending_sorted {A : Type} (key : A -> Z) l :
  StronglySorted (fun a b => key a >= key b) (sort_descending key l).
Proof.
  unfold sort_descending. induction l as [|x l IH]; simpl; [constructor|].
  apply insert_descending_sorted. exact IH.
Qed.

Lemma sort_descending_Permutation_eq {A : Type} (key : A -> Z) l1 l2 :
  Permutation l1 l2 -> NoDup (map key l1) ->
  sort_descending key l1 = sort_descending key l2.
Proof.
  intros Hp Hn.
  assert (Permutation (sort_descending key l1) l1) as H1 by apply stable_sort_Permutation.
  assert (Permutation (sort_descending key l2) l2) as H2 by apply stable_sort_Permutation.
  apply (sorted_Permutation_unique (fun a b => key a >= key b)).
  - intros x y Hx Hy Hxy Hyx.
    apply (NoDup_map_injective_on key l1); try assumption.
    + eapply Permutation_in; [exact H1|exact Hx].
    + eapply Permutation_in; [exact H1|exact Hy].
    + lia.
  - apply sort_descending_sorted.
  - apply sort_descending_sorted.
  - rewrite H1, H2. exact Hp.
Qed.

(** X18: when no two vehicle groups of the request have the same demand
    (quantity times length), the answer does not depend on the order in
    which the request lists its groups. *)
Theorem request_order_irrelevant (set_order : list (list Z) -> list (list Z))
    (request1 request2 : list Vehicle.t) (all_listings : list Listing.t) :
  Permutation request1 request2 -> NoDup (map demand request1) ->
  find_best_solution_with_grouping set_order request1 all_listings =
  find_best_solution_with_grouping set_order request2 all_listings.
Proof.
  intros Hp Hn. unfold find_best_solution_with_grouping, feasible_results, solve_location.
  rewrite (sort_descending_Permutation_eq demand _ _ Hp Hn). reflexivity.
Qed.

(** X19: a vehicle group of negative quantity has the effect of one of
    quantity 0: no location is feasible and the answer is empty. *)
Theorem negative_quantity_infeasible (set_order : list (list Z) -> list (list Z))
    (vehicle_request : list Vehicle.t) (all_listings : list Listing.t) (v : Vehicle.t) :
  In v vehicle_request -> Vehicle.quantity v < 0 ->
  (forall location, solve_location set_order vehicle_request location = None) /\
  find_best_solution_with_grouping set_order vehicle_request all_listings = [].
Proof.
  intros Hv Hq.
  assert (forall location, solve_location set_order vehicle_request location = None) as Hloc.
  { intros location. unfold solve_location.
    rewrite (place_request_no_cars set_order _ v); [reflexivity| |lia].
    unfold sort_descending. apply stable_sort_In. exact Hv. }
  split; [exact Hloc|].
  unfold find_best_solution_with_grouping, feasible_results.
  induction (group_listings_by_location all_listings) as [|location grouped IH];
    [reflexivity|].
  cbn [flat_map]. rewrite Hloc. exact IH.
Qed.

(* ------------------------------------------------------------------ *)
(** ** The partition generator on all integers *)

(** X20: for any integers total and minPart, also zero or negative, and
    numParts >= 1, the generator yields each tuple once, yields exactly the
    non-decreasing tuples of length numParts with parts at least minPart that
    sum to total, and so yields nothing when total < minPart * numParts. *)
Theorem find_partitions_all_integers (total : Z) (numParts : nat) (minPart : Z) :
  (1 <= numParts)%nat ->
  NoDup (find_partitions total numParts minPart) /\
  (forall t, In t (find_partitions total numParts minPart) <->
             is_partition total numParts minPart t) /\
  (total < minPart * Z.of_nat numParts -> find_partitions total numParts minPart = []).
Proof.
  intros Hk. destruct numParts as [|k]; [lia|].
  split; [apply NoDup_find_partitions|]. split.
  - intros t. rewrite in_find_partitions. unfold is_partition.
    rewrite nondecreasing_from_sorted. tauto.
  - apply find_partitions_empty.
Qed.

(* ------------------------------------------------------------------ *)
(** ** The further theorems at concrete inputs *)

Lemma reverse_insertion_order_distinct : iterates_distinct reverse_insertion_order.
Proof.
  intros l. unfold reverse_insertion_order.
  destruct (insertion_order_distinct l) as [Hn Hin]. split.
  - apply NoDup_rev. exact Hn.
  - intros x. rewrite <- in_rev. apply Hin.
Qed.

Example orderings_3_reversed :
  orderings reverse_insertion_order 3 = [[3]; [2; 1]; [1; 2]; [1; 1; 1]].
Proof. reflexivity. Qed.

Lemma fits_smaller_group_witness :
  0 <= 10 /\ 1 <= 2 /\ fits 2 10 listing_c = true /\ fits 1 10 listing_c = true.
Proof.
  assert (0 <= 10) as H1 by lia. assert (1 <= 2) as H2 by lia.
  assert (fits 2 10 listing_c = true) as H3 by reflexivity.
  split; [exact H1|]. split; [exact H2|]. split; [exact H3|].
  exact (fits_smaller_group 10 2 1 listing_c H1 H2 H3).
Defined.

Lemma orderings_are_compositions_witness :
  iterates_distinct insertion_order /\
  NoDup (orderings insertion_order 4) /\
  forall o, In o (orderings insertion_order 4) <-> is_composition 4 o.
Proof.
  split; [exact insertion_order_distinct|].
  exact (orderings_are_compositions insertion_order insertion_order_distinct 4).
Defined.

Lemma price_to_beat_contract_witness :
  iterates_distinct insertion_order /\ nonnegative_prices [listing_a; listing_b] /\
  (find_cheapest_for_location insertion_order 2 10 [listing_a; listing_b] (Fin 600)
     = None <->
   forall o used, is_composition 2 o -> greedy 10 o [listing_a; listing_b] = Some used ->
     600 <= sum_prices used).
Proof.
  assert (nonnegative_prices [listing_a; listing_b]) as H
    by (repeat constructor; simpl; lia).
  split; [exact insertion_order_distinct|]. split; [exact H|].
  exact (proj2 (price_to_beat_contract insertion_order 2 10 [listing_a; listing_b] 600
                  insertion_order_distinct H)).
Defined.

Lemma first_cheapest_wins_witness :
  nonnegative_prices [listing_a; listing_b] /\
  find_cheapest_for_location insertion_order 2 10 [listing_a; listing_b] Inf
    = Some (Arrangement.mk [1; 1] [listing_a; listing_b] 600) /\
  exists earlier later,
    orderings insertion_order 2 = earlier ++ [1; 1] :: later /\
    (forall o used, In o earlier -> greedy 10 o [listing_a; listing_b] = Some used ->
       600 < sum_prices used) /\
    (forall o used, In o later -> greedy 10 o [listing_a; listing_b] = Some used ->
       600 <= sum_prices used).
Proof.
  assert (nonnegative_prices [listing_a; listing_b]) as H
    by (repeat constructor; simpl; lia).
  assert (find_cheapest_for_location insertion_order 2 10 [listing_a; listing_b] Inf
          = Some (Arrangement.mk [1; 1] [listing_a; listing_b] 600)) as E
    by reflexivity.
  split; [exact H|]. split; [exact E|].
  exact (first_cheapest_wins insertion_order 2 10 [listing_a; listing_b] Inf _ H E).
Defined.

Lemma price_independent_of_set_order_witness :
  iterates_distinct insertion_order /\ iterates_distinct reverse_insertion_order /\
  nonnegative_prices [listing_a; listing_b; listing_c] /\
  option_map Arrangement.total_price_in_cents
    (find_cheapest_for_location insertion_order 3 10
       [listing_a; listing_b; listing_c] Inf) =
  option_map Arrangement.total_price_in_cents
    (find_cheapest_for_location reverse_insertion_order 3 10
       [listing_a; listing_b; listing_c] Inf).
Proof.
  assert (nonnegative_prices [listing_a; listing_b; listing_c]) as H
    by (repeat constructor; simpl; lia).
  split; [exact insertion_order_distinct|].
  split; [exact reverse_insertion_order_distinct|]. split; [exact H|].
  exact (price_independent_of_set_order insertion_order reverse_insertion_order 3 10
           [listing_a; listing_b; listing_c] Inf
           insertion_order_distinct reverse_insertion_order_distinct H).
Defined.

Lemma arrangement_well_formed_witness :
  iterates_distinct insertion_order /\
  find_cheapest_for_location insertion_order 2 10 [listing_a; listing_b] Inf
    = Some (Arrangement.mk [1; 1] [listing_a; listing_b] 600) /\
  is_composition 2 [1; 1] /\
  Forall2 (fun g l => fits g 10 l = true) [1; 1] [listing_a; listing_b].
Proof.
  assert (find_cheapest_for_location insertion_order 2 10 [listing_a; listing_b] Inf
          = Some (Arrangement.mk [1; 1] [listing_a; listing_b] 600)) as E
    by reflexivity.
  split; [exact insertion_order_distinct|]. split; [exact E|].
  pose proof (arrangement_well_formed insertion_order 2 10 [listing_a; listing_b] Inf _
                insertion_order_distinct E) as H.
  split; [exact (proj1 H)|exact (proj1 (proj2 H))].
Defined.


Lemma single_vehicle_listings_witness :
  iterates_distinct insertion_order /\ 1 <= 2 /\ 0 <= 10 /\
  (Z.to_nat 2 <= List.length (filter (fits 1 10) [listing_a; listing_b]))%nat /\
  exists a,
    find_cheapest_for_location insertion_order 2 10 [listing_a; listing_b] Inf = Some a.
Proof.
  assert (1 <= 2) as H1 by lia. assert (0 <= 10) as H2 by lia.
  assert (Z.to_nat 2 <= List.length (filter (fits 1 10) [listing_a; listing_b]))%nat
    as H3 by (vm_compute; lia).
  split; [exact insertion_order_distinct|].
  split; [exact H1|]. split; [exact H2|]. split; [exact H3|].
  exact (proj1 (single_vehicle_listings insertion_order 2 10 [listing_a; listing_b]
                  insertion_order_distinct H1 H2) H3).
Defined.


Lemma location_independence_witness :
  listings_at "L1" [listing_a; listing_c] = listings_at "L1" [listing_a] /\
  (In (Result.mk "L1" 300 ["a"%string])
      (find_best_solution_with_grouping insertion_order [Vehicle.mk 10 1]
         [listing_a; listing_c]) <->
   In (Result.mk "L1" 300 ["a"%string])
      (find_best_solution_with_grouping insertion_order [Vehicle.mk 10 1] [listing_a])).
Proof.
  assert (listings_at "L1" [listing_a; listing_c] = listings_at "L1" [listing_a]) as H
    by reflexivity.
  split; [exact H|].
  exact (location_independence insertion_order [Vehicle.mk 10 1]
           [listing_a; listing_c] [listing_a] (Result.mk "L1" 300 ["a"%string]) H).
Defined.

Lemma no_double_booking_witness :
  In (Result.mk "L1" 600 ["a"%string; "b"%string])
     (find_best_solution_with_grouping insertion_order [Vehicle.mk 10 2]
        [listing_a; listing_c; listing_b]) /\
  exists used remaining,
    ["a"%string; "b"%string] = map Listing.id used /\
    600 = sum_prices used /\
    Permutation (listings_at "L1" [listing_a; listing_c; listing_b]) (used ++ remaining).
Proof.
  assert (In (Result.mk "L1" 600 ["a"%string; "b"%string])
            (find_best_solution_with_grouping insertion_order [Vehicle.mk 10 2]
               [listing_a; listing_c; listing_b])) as H
    by (right; left; reflexivity).
  split; [exact H|].
  exact (no_double_booking insertion_order [Vehicle.mk 10 2]
           [listing_a; listing_c; listing_b] _ H).
Defined.

Lemma listings_per_result_witness :
  iterates_distinct insertion_order /\
  In (Result.mk "L1" 600 ["a"%string; "b"%string])
     (find_best_solution_with_grouping insertion_order [Vehicle.mk 10 2]
        [listing_a; listing_b]) /\
  Z.of_nat (List.length [Vehicle.mk 10 2])
    <= Z.of_nat (List.length ["a"%string; "b"%string])
    <= total_cars [Vehicle.mk 10 2].
Proof.
  assert (In (Result.mk "L1" 600 ["a"%string; "b"%string])
            (find_best_solution_with_grouping insertion_order [Vehicle.mk 10 2]
               [listing_a; listing_b])) as H
    by (left; reflexivity).
  split; [exact insertion_order_distinct|]. split; [exact H|].
  exact (listings_per_result insertion_order [Vehicle.mk 10 2] [listing_a; listing_b] _
           insertion_order_distinct H).
Defined.

Lemma request_order_irrelevant_witness :
  Permutation [Vehicle.mk 10 1; Vehicle.mk 20 1] [Vehicle.mk 20 1; Vehicle.mk 10 1] /\
  NoDup (map demand [Vehicle.mk 10 1; Vehicle.mk 20 1]) /\
  find_best_solution_with_grouping insertion_order
    [Vehicle.mk 10 1; Vehicle.mk 20 1] [listing_a; listing_c; listing_b] =
  find_best_solution_with_grouping insertion_order
    [Vehicle.mk 20 1; Vehicle.mk 10 1] [listing_a; listing_c; listing_b].
Proof.
  assert (Permutation [Vehicle.mk 10 1; Vehicle.mk 20 1]
                      [Vehicle.mk 20 1; Vehicle.mk 10 1]) as H1 by apply perm_swap.
  assert (NoDup (map demand [Vehicle.mk 10 1; Vehicle.mk 20 1])) as H2.
  { repeat constructor; simpl; intuition discriminate. }
  split; [exact H1|]. split; [exact H2|].
  exact (request_order_irrelevant insertion_order _ _
           [listing_a; listing_c; listing_b] H1 H2).
Defined.

Lemma negative_quantity_infeasible_witness :
  In (Vehicle.mk 10 (-1)) [Vehicle.mk 10 1; Vehicle.mk 10 (-1)] /\
  Vehicle.quantity (Vehicle.mk 10 (-1)) < 0 /\
  find_best_solution_with_grouping insertion_order
    [Vehicle.mk 10 1; Vehicle.mk 10 (-1)] [listing_a; listing_c] = [].
Proof.
  assert (In (Vehicle.mk 10 (-1)) [Vehicle.mk 10 1; Vehicle.mk 10 (-1)]) as H1
    by (right; left; reflexivity).
  assert (Vehicle.quantity (Vehicle.mk 10 (-1)) < 0) as H2 by (simpl; lia).
  split; [exact H1|]. split; [exact H2|].
  exact (proj2 (negative_quantity_infeasible insertion_order
                  [Vehicle.mk 10 1; Vehicle.mk 10 (-1)] [listing_a; listing_c] _ H1 H2)).
Defined.

Lemma find_partitions_all_integers_witness :
  (1 <= 2)%nat /\
  NoDup (find_partitions (-3) 2 (-2)) /\
  (forall t, In t (find_partitions (-3) 2 (-2)) <-> is_partition (-3) 2 (-2) t) /\
  ((-3) < (-2) * Z.of_nat 2 -> find_partitions (-3) 2 (-2) = []).
Proof.
  assert (1 <= 2)%nat as H by lia.
  split; [exact H|]. exact (find_partitions_all_integers (-3) 2 (-2) H).
Defined.

Example find_partitions_negative :
  find_partitions (-3) 2 (-2) = [[-2; -1]].
Proof. reflexivity. Qed.

(* ------------------------------------------------------------------ *)
(** ** The scan in a pool of any order *)

Lemma scan_first_compatible groupSize carLength pool spot :
  find_cheapest_spot_optimized groupSize carLength pool = Some spot ->
  exists before after,
    pool = before ++ spot :: after /\
    fits groupSize carLength spot = true /\
    (forall l, In l before -> fits groupSize carLength l = false) /\
    remove_first spot pool = before ++ after.
Proof.
  induction pool as [|l pool IH]; simpl; [discriminate|].
  destruct (fits groupSize carLength l) eqn:E.
  - intros [= <-]. exists [], pool. rewrite Listing_eqb_refl.
    repeat split; [exact E|intros ? []].
  - intros H. destruct (IH H) as [before [after [-> [Hf [Hb Hr]]]]].
    exists (l :: before), after.
    split; [reflexivity|]. split; [exact Hf|]. split.
    + intros x [<-|Hx]; [exact E|auto].
    + destruct (Listing.eqb l spot) eqn:Q.
      * apply Listing_eqb_eq in Q. congruence.
      * simpl. rewrite Hr. reflexivity.
Qed.

(** X21: in a pool of any order the scan returns the first compatible
    listing by position, whatever its price, and removing the returned
    listing from the pool takes out that very occurrence, leaving the other
    listings in their order. *)
Theorem scan_takes_first_compatible (groupSize carLength : Z)
    (pool : list Listing.t) (spot : Listing.t) :
  (find_cheapest_spot_optimized groupSize carLength pool = Some spot ->
   exists before after,
     pool = before ++ spot :: after /\
     fits groupSize carLength spot = true /\
     (forall l, In l before -> fits groupSize carLength l = false) /\
     remove_first spot pool = before ++ after) /\
  (forall before after,
     pool = before ++ spot :: after ->
     fits groupSize carLength spot = true ->
     (forall l, In l before -> fits groupSize carLength l = false) ->
     find_cheapest_spot_optimized groupSize carLength pool = Some spot).
Proof.
  split; [apply scan_first_compatible|].
  intros before after -> Hf Hb. induction before as [|l before IH]; simpl.
  - rewrite Hf. reflexivity.
  - rewrite (Hb l) by (left; reflexivity). apply IH.
    intros x Hx. apply Hb. right. exact Hx.
Qed.

(* ------------------------------------------------------------------ *)
(** ** The group search against the greedy service *)

Lemma fits_compatible groupSize vehicleLength l :
  fits groupSize vehicleLength l = true <-> compatible vehicleLength groupSize l.
Proof. rewrite fits_dominates. reflexivity. Qed.

Lemma not_compatible_fits groupSize vehicleLength l :
  ~ compatible vehicleLength groupSize l <-> fits groupSize vehicleLength l = false.
Proof.
  rewrite <- fits_compatible. destruct (fits groupSize vehicleLength l); split;
    congruence.
Qed.

Lemma remove_first_at before spot after :
  (forall l, In l before -> l <> spot) ->
  remove_first spot (before ++ spot :: after) = before ++ after.
Proof.
  induction before as [|l before IH]; intros H; simpl.
  - rewrite Listing_eqb_refl. reflexivity.
  - destruct (Listing.eqb l spot) eqn:E.
    + apply Listing_eqb_eq in E. exfalso. apply (H l); [left; reflexivity|exact E].
    + rewrite IH; [reflexivity|]. intros x Hx. apply H. right. exact Hx.
Qed.

Lemma scan_finds_first groupSize carLength before spot after :
  fits groupSize carLength spot = true ->
  (forall l, In l before -> fits groupSize carLength l = false) ->
  find_cheapest_spot_optimized groupSize carLength (before ++ spot :: after) = Some spot.
Proof.
  intros Hf Hb. induction before as [|l before IH]; simpl.
  - rewrite Hf. reflexivity.
  - rewrite (Hb l) by (left; reflexivity). apply IH.
    intros x Hx. apply Hb. right. exact Hx.
Qed.

Lemma greedy_service_greedy vehicleLength ordering pool used :
  greedy_service vehicleLength ordering pool used ->
  greedy vehicleLength ordering pool = Some used.
Proof.
  induction 1 as [pool|g rest before spot after used Hc Hb Hmin Hs IH];
    [reflexivity|].
  cbn [greedy]. apply fits_compatible in Hc.
  assert (forall l, In l before -> fits g vehicleLength l = false) as Hb'
    by (intros l Hl; apply not_compatible_fits; auto).
  rewrite (scan_finds_first _ _ _ _ _ Hc Hb').
  rewrite remove_first_at, IH; [reflexivity|].
  intros l Hl ->. rewrite (Hb' _ Hl) in Hc. discriminate.
Qed.

Lemma greedy_greedy_service vehicleLength ordering :
  forall pool used,
  price_ascending pool ->
  greedy vehicleLength ordering pool = Some used ->
  greedy_service vehicleLength ordering pool used.
Proof.
  induction ordering as [|g rest IH]; intros pool used Hs; simpl.
  - intros [= <-]. constructor.
  - destruct (find_cheapest_spot_optimized g vehicleLength pool) as [spot|] eqn:E;
      [|discriminate].
    destruct (greedy vehicleLength rest (remove_first spot pool)) as [u|] eqn:G;
      [|discriminate].
    intros [= <-].
    pose proof (find_cheapest_spot_first _ _ _ _ Hs E) as Hmin.
    pose proof (remove_first_price_ascending spot pool Hs) as Hs'.
    destruct (scan_first_compatible _ _ _ _ E) as [before [after [-> [Hf [Hb Hr]]]]].
    rewrite Hr in G, Hs'. constructor.
    + apply fits_compatible. exact Hf.
    + intros l Hl. apply not_compatible_fits. auto.
    + intros l Hl Hc. apply Hmin; [exact Hl|]. apply fits_compatible. exact Hc.
    + apply IH; assumption.
Qed.

Lemma ordering_of_some_partition_generated numCars o :
  ordering_of_some_partition numCars o <-> is_ordering_of_partition numCars o.
Proof.
  unfold ordering_of_some_partition, is_ordering_of_partition, is_partition. split.
  - intros [k [part [Hk [[H1 [H2 [H3 H4]]] Hperm]]]]. exists k, part.
    split; [|exact Hperm]. destruct k as [|k]; [lia|].
    apply in_find_partitions. split; [exact H1|]. split; [|exact H4].
    apply nondecreasing_from_sorted. auto.
  - intros [k [part [Hin Hperm]]]. destruct k as [|k]; [contradiction|].
    exists (S k), part. split; [lia|]. split; [|exact Hperm].
    apply in_find_partitions in Hin. destruct Hin as [H1 [H2 H3]].
    apply nondecreasing_from_sorted in H2. tauto.
Qed.

Section GroupSearchOptimal.

Variable set_order : list (list Z) -> list (list Z).
Hypothesis set_order_distinct : iterates_distinct set_order.

(** C2: for every vehicleLength and numCars (in particular every
    numCars >= 1; below 1 there is no partition and nothing is returned),
    every price-ascending pool of non-negative prices and no initial bound,
    the group search returns an arrangement that is the greedy service of an
    ordering of a partition of numCars (every sub-group taking the cheapest
    compatible listing that remains, the earliest in the pool among equals),
    whose total price is the sum of its listings and is at most the total
    price of the greedy service of every feasible ordering of every
    partition of numCars; it returns nothing exactly when no ordering of any
    partition of numCars is feasible. *)
Theorem group_search_optimal (vehicleLength numCars : Z) (pool : list Listing.t) :
  price_ascending pool -> nonnegative_prices pool ->
  (forall a,
     find_cheapest_for_location set_order numCars vehicleLength pool Inf = Some a ->
     ordering_of_some_partition numCars (Arrangement.split_of_cars a) /\
     greedy_service vehicleLength (Arrangement.split_of_cars a) pool
       (Arrangement.listings_used a) /\
     Arrangement.total_price_in_cents a = sum_prices (Arrangement.listings_used a) /\
     forall o used,
       ordering_of_some_partition numCars o ->
       greedy_service vehicleLength o pool used ->
       Arrangement.total_price_in_cents a <= sum_prices used) /\
  (find_cheapest_for_location set_order numCars vehicleLength pool Inf = None <->
   forall o used,
     ordering_of_some_partition numCars o ->
     ~ greedy_service vehicleLength o pool used).
Proof.
  intros Hs Hn.
  pose proof (group_search_invariant set_order numCars vehicleLength pool Hn) as Hinv.
  assert (forall o, In o (orderings set_order numCars) <->
                    ordering_of_some_partition numCars o) as Hord.
  { intros o. rewrite ordering_of_some_partition_generated.
    apply in_orderings. exact set_order_distinct. }
  unfold find_cheapest_for_location, search_invariant in *.
  destruct (snd (fold_left (try_ordering vehicleLength pool)
                   (orderings set_order numCars) (Inf, None))) as [a|].
  - destruct Hinv as [_ [Hin [Hg [Ht Hmin]]]]. split.
    + intros a' [= <-]. split; [apply Hord; exact Hin|].
      split; [apply greedy_greedy_service; assumption|]. split; [exact Ht|].
      intros o used Ho Hserv. apply (Hmin o used).
      * apply Hord. exact Ho.
      * apply greedy_service_greedy. exact Hserv.
    + split; [discriminate|]. intros Hnone. exfalso.
      apply (Hnone (Arrangement.split_of_cars a) (Arrangement.listings_used a)).
      * apply Hord. exact Hin.
      * apply greedy_greedy_service; assumption.
  - destruct Hinv as [_ Hnone]. split; [discriminate|].
    split; [|reflexivity]. intros _ o used Ho Hserv.
    apply greedy_service_greedy in Hserv.
    rewrite (Hnone o) in Hserv; [discriminate|]. apply Hord. exact Ho.
Qed.

End GroupSearchOptimal.

(* ------------------------------------------------------------------ *)
(** ** The group search and the shared id at concrete inputs *)

Lemma group_search_optimal_witness :
  price_ascending [listing_a; listing_b; listing_c] /\
  nonnegative_prices [listing_a; listing_b; listing_c] /\
  find_cheapest_for_location insertion_order 2 10 [listing_a; listing_b; listing_c] Inf
    = Some (Arrangement.mk [2] [listing_c] 500) /\
  ordering_of_some_partition 2 [1; 1] /\
  greedy_service 10 [1; 1] [listing_a; listing_b; listing_c] [listing_a; listing_b] /\
  ordering_of_some_partition 2 [2] /\
  greedy_service 10 [2] [listing_a; listing_b; listing_c] [listing_c] /\
  500 <= sum_prices [listing_a; listing_b] /\
  forall o used,
    ordering_of_some_partition 2 o ->
    greedy_service 10 o [listing_a; listing_b; listing_c] used ->
    500 <= sum_prices used.
Proof.
  assert (price_ascending [listing_a; listing_b; listing_c]) as H1
    by (repeat constructor; simpl; lia).
  assert (nonnegative_prices [listing_a; listing_b; listing_c]) as H2
    by (repeat constructor; simpl; lia).
  assert (find_cheapest_for_location insertion_order 2 10
            [listing_a; listing_b; listing_c] Inf
          = Some (Arrangement.mk [2] [listing_c] 500)) as H3 by reflexivity.
  assert (ordering_of_some_partition 2 [1; 1]) as H4.
  { exists 2%nat, [1; 1]. split; [lia|]. split; [|apply Permutation_refl].
    repeat split; repeat constructor; lia. }
  assert (greedy_service 10 [1; 1] [listing_a; listing_b; listing_c]
            [listing_a; listing_b]) as H5.
  { apply (service_step 10 1 [1] [] listing_a [listing_b; listing_c] [listing_b]).
    - left. simpl. lia.
    - intros l [].
    - intros l [<-|[<-|[<-|[]]]] _; simpl; lia.
    - apply (service_step 10 1 [] [] listing_b [listing_c] []).
      + left. simpl. lia.
      + intros l [].
      + intros l [<-|[<-|[]]] _; simpl; lia.
      + apply service_done. }
  destruct (proj1 (group_search_optimal insertion_order insertion_order_distinct
                     10 2 [listing_a; listing_b; listing_c] H1 H2) _ H3)
    as [H6 [H7 [_ H8]]].
  split; [exact H1|]. split; [exact H2|]. split; [exact H3|].
  split; [exact H4|]. split; [exact H5|]. split; [exact H6|].
  split; [exact H7|]. split; [exact (H8 _ _ H4 H5)|exact H8].
Defined.

(** C8 as stated fails: two locations each hold a listing with id "x"; the
    result for location "L2" lists "x", which is also the id of a catalog
    listing at location "L1". *)
Lemma shared_id_counterexample :
  find_best_solution_with_grouping insertion_order [Vehicle.mk 10 1]
    [listing_x1; listing_x2]
    = [Result.mk "L1" 300 ["x"%string]; Result.mk "L2" 300 ["x"%string]] /\
  In (Result.mk "L2" 300 ["x"%string])
     (find_best_solution_with_grouping insertion_order [Vehicle.mk 10 1]
        [listing_x1; listing_x2]) /\
  In "x"%string (Result.listing_ids (Result.mk "L2" 300 ["x"%string])) /\
  In listing_x1 [listing_x1; listing_x2] /\
  Listing.id listing_x1 = "x"%string /\
  Listing.location_id listing_x1
    <> Result.location_id (Result.mk "L2" 300 ["x"%string]) /\
  ~ (forall r i l',
       In r (find_best_solution_with_grouping insertion_order [Vehicle.mk 10 1]
               [listing_x1; listing_x2]) ->
       In i (Result.listing_ids r) ->
       In l' [listing_x1; listing_x2] -> Listing.id l' = i ->
       Listing.location_id l' = Result.location_id r).
Proof.
  split; [reflexivity|]. split; [right; left; reflexivity|].
  split; [left; reflexivity|]. split; [left; reflexivity|].
  split; [reflexivity|]. split; [discriminate|].
  intros H.
  specialize (H (Result.mk "L2" 300 ["x"%string]) "x"%string listing_x1).
  assert (Listing.location_id listing_x1 = "L2"%string) as E.
  { apply H; [right; left; reflexivity|left; reflexivity|left; reflexivity
             |reflexivity]. }
  discriminate E.
Qed.

Lemma listing_ids_location_local_witness :
  In (Result.mk "L2" 500 ["c"%string])
     (find_best_solution_with_grouping insertion_order [Vehicle.mk 20 2]
        [listing_a; listing_c; listing_b]) /\
  In "c"%string (Result.listing_ids (Result.mk "L2" 500 ["c"%string])) /\
  NoDup (map Listing.id [listing_a; listing_c; listing_b]) /\
  (exists l, In l [listing_a; listing_c; listing_b] /\ Listing.id l = "c"%string /\
             Listing.location_id l = "L2"%string) /\
  (forall l', In l' [listing_a; listing_c; listing_b] ->
              Listing.id l' = "c"%string ->
              Listing.location_id l' = "L2"%string).
Proof.
  assert (In (Result.mk "L2" 500 ["c"%string])
            (find_best_solution_with_grouping insertion_order [Vehicle.mk 20 2]
               [listing_a; listing_c; listing_b])) as H1
    by (left; reflexivity).
  assert (In "c"%string (Result.listing_ids (Result.mk "L2" 500 ["c"%string]))) as H2
    by (left; reflexivity).
  assert (NoDup (map Listing.id [listing_a; listing_c; listing_b])) as H3.
  { repeat constructor; simpl; intuition discriminate. }
  split; [exact H1|]. split; [exact H2|]. split; [exact H3|].
  split.
  - exact (proj1 (listing_ids_location_local insertion_order [Vehicle.mk 20 2]
                    [listing_a; listing_c; listing_b] _ _ H1 H2)).
  - exact (proj2 (listing_ids_location_local insertion_order [Vehicle.mk 20 2]
                    [listing_a; listing_c; listing_b] _ _ H1 H2) H3).
Defined.
